(** * The [gl_latest_version] lookup plugin

    A shallow embedding of
    [ansible_collections/validatrium/genlayer/plugins/lookup/gl_latest_version.py]
    and the properties of [LookupModule.run] that the specification states.

    The plugin runs under Python 3 only: [with urlopen(...) as resp] needs a
    context manager, which the Python 2 fallback [urllib2.urlopen] does not
    return.  Strings are therefore Python 3 [str] values, sequences of Unicode
    code points, and comparisons follow Python 3: ordering an [int] against a
    [str] raises [TypeError]. *)

From Stdlib Require Import ZArith NArith Strings.String Strings.Ascii Strings.Byte.
From Stdlib Require Import Numbers.DecimalString.
From stdpp Require Import base list gmap sorting.

Local Open Scope N_scope.

(** * The program *)

(** ** Text *)

(** A Python [str]: the list of its code points. *)
Definition str : Type := list N.

(** ASCII literals of the source, as [str]. *)
Definition u (s : string) : str := N_of_ascii <$> list_ascii_of_string s.

(** The bytes of an ASCII literal, for response bodies. *)
Definition bytes_of (s : string) : list byte := list_byte_of_string s.

Definition chr (c : string) : N :=
  match c with
  | String a EmptyString => N_of_ascii a
  | _ => 0
  end.

Definition QUOTE : N := 34.
Definition SLASH : N := chr "/".

(** ** Exceptions and results *)

Inductive exn : Type :=
| AnsibleError (msg : str)
| TypeError (left right : str)
| UnicodeDecodeError (start stop : nat) (first : N) (reason : str)
| TransportError (msg : str)
| IndexError.

Inductive result (A : Type) : Type :=
| Ok (a : A)
| Raise (e : exn).
Arguments Ok {A} a.
Arguments Raise {A} e.

Definition rbind {A B} (m : result A) (f : A -> result B) : result B :=
  match m with
  | Ok a => f a
  | Raise e => Raise e
  end.

Definition rmap {A B} (f : A -> B) (m : result A) : result B :=
  rbind m (fun a => Ok (f a)).

Definition is_ok {A} (m : result A) : bool :=
  match m with Ok _ => true | Raise _ => false end.

(** ** [bytes.decode('utf-8', errors=...)] *)

Inductive errors : Type := strict | ignore | replace.

Definition is_continuation (b : N) : bool := (0x80 <=? b) && (b <=? 0xBF).

(** The second byte of a three or four byte sequence also excludes the
    overlong forms, the surrogates and the values above U+10FFFF. *)
Definition second_ok (b1 b2 : N) : bool :=
  is_continuation b2 &&
  negb (if b2 <? 0xA0 then b1 =? 0xE0 else b1 =? 0xED) &&
  negb (if b2 <? 0x90 then b1 =? 0xF0 else b1 =? 0xF4).

Definition on_error (h : errors) (start len : nat) (first : N) (reason : string)
    (rest : result str) : result str :=
  match h with
  | strict => Raise (UnicodeDecodeError start (start + len) first (u reason))
  | ignore => rest
  | replace => rmap (cons 0xFFFD) rest
  end.

Definition cp2 (b1 b2 : N) : N :=
  N.lor (N.shiftl (N.land b1 0x1F) 6) (N.land b2 0x3F).
Definition cp3 (b1 b2 b3 : N) : N :=
  N.lor (N.shiftl (N.land b1 0x0F) 12) (N.lor (N.shiftl (N.land b2 0x3F) 6) (N.land b3 0x3F)).
Definition cp4 (b1 b2 b3 b4 : N) : N :=
  N.lor (N.shiftl (N.land b1 0x07) 18)
    (N.lor (N.shiftl (N.land b2 0x3F) 12)
       (N.lor (N.shiftl (N.land b3 0x3F) 6) (N.land b4 0x3F))).

Definition EOD : string := "unexpected end of data".
Definition BAD_START : string := "invalid start byte".
Definition BAD_CONT : string := "invalid continuation byte".

(** The decoder.  [pos] is the index of the head of [bs] in the whole input.
    An error covers the longest prefix of a well-formed sequence, and the
    handler decides: [strict] raises, [ignore] drops the covered bytes,
    [replace] puts U+FFFD in their place. *)
Fixpoint utf8_decode (h : errors) (pos : nat) (bs : list byte) : result str :=
  match bs with
  | [] => Ok []
  | c1 :: r1 =>
    let b1 := Byte.to_N c1 in
    let skip1 reason := on_error h pos 1 b1 reason (utf8_decode h (S pos) r1) in
    if b1 <? 0x80 then rmap (cons b1) (utf8_decode h (S pos) r1)
    else if b1 <? 0xC2 then skip1 BAD_START
    else if b1 <? 0xE0 then
      match r1 with
      | [] => on_error h pos 1 b1 EOD (Ok [])
      | c2 :: r2 =>
        let b2 := Byte.to_N c2 in
        if is_continuation b2
        then rmap (cons (cp2 b1 b2)) (utf8_decode h (2 + pos) r2)
        else skip1 BAD_CONT
      end
    else if b1 <? 0xF0 then
      match r1 with
      | [] => on_error h pos 1 b1 EOD (Ok [])
      | c2 :: r2 =>
        let b2 := Byte.to_N c2 in
        if negb (second_ok b1 b2) then skip1 BAD_CONT
        else
          match r2 with
          | [] => on_error h pos 2 b1 EOD (Ok [])
          | c3 :: r3 =>
            let b3 := Byte.to_N c3 in
            if is_continuation b3
            then rmap (cons (cp3 b1 b2 b3)) (utf8_decode h (3 + pos) r3)
            else on_error h pos 2 b1 BAD_CONT (utf8_decode h (2 + pos) r2)
          end
      end
    else if b1 <? 0xF5 then
      match r1 with
      | [] => on_error h pos 1 b1 EOD (Ok [])
      | c2 :: r2 =>
        let b2 := Byte.to_N c2 in
        if negb (second_ok b1 b2) then skip1 BAD_CONT
        else
          match r2 with
          | [] => on_error h pos 2 b1 EOD (Ok [])
          | c3 :: r3 =>
            let b3 := Byte.to_N c3 in
            if negb (is_continuation b3)
            then on_error h pos 2 b1 BAD_CONT (utf8_decode h (2 + pos) r2)
            else
              match r3 with
              | [] => on_error h pos 3 b1 EOD (Ok [])
              | c4 :: r4 =>
                let b4 := Byte.to_N c4 in
                if is_continuation b4
                then rmap (cons (cp4 b1 b2 b3 b4)) (utf8_decode h (4 + pos) r4)
                else on_error h pos 3 b1 BAD_CONT (utf8_decode h (3 + pos) r3)
              end
          end
      end
    else skip1 BAD_START
  end.

(** [body.decode('utf-8', errors=h)] *)
Definition decode (h : errors) (body : list byte) : result str :=
  utf8_decode h 0 body.

(** [str(e)] for the exceptions of this development. *)
Definition dec (n : nat) : str :=
  u (NilEmpty.string_of_uint (Nat.to_uint n)).

Definition hex_digit (d : N) : N := if d <? 10 then 48 + d else 87 + d.
Definition hex2 (b : N) : str := [hex_digit (b / 16); hex_digit (b mod 16)].

Definition describe (e : exn) : str :=
  match e with
  | AnsibleError msg => msg
  | TypeError l r =>
    u "'<' not supported between instances of '" ++ l ++ u "' and '" ++ r ++ u "'"
  | UnicodeDecodeError start stop first reason =>
    if (stop =? S start)%nat
    then u "'utf-8' codec can't decode byte 0x" ++ hex2 first ++
         u " in position " ++ dec start ++ u ": " ++ reason
    else u "'utf-8' codec can't decode bytes in position " ++ dec start ++
         u "-" ++ dec (pred stop) ++ u ": " ++ reason
  | TransportError msg => msg
  | IndexError => u "list index out of range"
  end.

(** ** The two regular expressions *)

(** [\s] of a [str] pattern: the white space of the Unicode database. *)
Definition is_space (c : N) : bool :=
  ((0x09 <=? c) && (c <=? 0x0D)) || ((0x1C <=? c) && (c <=? 0x20)) ||
  (c =? 0x85) || (c =? 0xA0) || (c =? 0x1680) ||
  ((0x2000 <=? c) && (c <=? 0x200A)) ||
  (c =? 0x2028) || (c =? 0x2029) || (c =? 0x202F) || (c =? 0x205F) || (c =? 0x3000).

(** The longest prefix whose elements satisfy [p], and what follows it: a
    greedy [[...]*]. *)
Fixpoint span {A} (p : A -> bool) (l : list A) : list A * list A :=
  match l with
  | [] => ([], [])
  | x :: l' => if p x then let '(a, b) := span p l' in (x :: a, b) else ([], l)
  end.

Fixpoint strip_prefix (p s : str) : option str :=
  match p, s with
  | [], _ => Some s
  | a :: p', b :: s' => if a =? b then strip_prefix p' s' else None
  | _ :: _, [] => None
  end.

(** The literal that opens the first pattern: the word name between two
    quotation marks, then a colon. *)
Definition NAME_KEY : str := QUOTE :: u "name" ++ [QUOTE; chr ":"].

(** A match of the first pattern at the head of [s]: [NAME_KEY], then [\s*],
    a quotation mark, one or more characters other than a quotation mark
    (group 1), and a quotation mark.  The result is group 1 and the text after
    the match.  Each greedy loop is followed by a character that the loop
    cannot consume, so the longest run is the only candidate. *)
Definition match_name (s : str) : option (str * str) :=
  match strip_prefix NAME_KEY s with
  | None => None
  | Some r0 =>
    match (span is_space r0).2 with
    | q :: r2 =>
      if q =? QUOTE then
        match span (fun c => negb (c =? QUOTE)) r2 with
        | ((_ :: _) as name, _ :: r4) => Some (name, r4)
        | _ => None
        end
      else None
    | [] => None
    end
  end.

(** [re.findall]: leftmost matches, no two overlapping.  [skip] counts the
    characters of the last match that are still to be passed over. *)
Fixpoint findall_from (skip : nat) (s : str) : list str :=
  match s with
  | [] => []
  | _ :: rest =>
    match skip with
    | S k => findall_from k rest
    | O =>
      match match_name s with
      | Some (name, after) => name :: findall_from (length rest - length after) rest
      | None => findall_from 0 rest
      end
    end
  end.

(** [re.findall] of the first pattern in [data]. *)
Definition findall (data : str) : list str := findall_from 0 data.

(** A match of [/(v[^/]+)/] at the head of [n]: group 1. *)
Definition match_version (n : str) : option str :=
  match n with
  | s :: v :: r =>
    if (s =? SLASH) && (v =? chr "v") then
      match span (fun c => negb (c =? SLASH)) r with
      | ((_ :: _) as seg, _ :: _) => Some (v :: seg)
      | _ => None
      end
    else None
  | _ => None
  end.

(** [re.search(r'/(v[^/]+)/', n)], then [m.group(1)]: the leftmost match. *)
Fixpoint search (n : str) : option str :=
  match n with
  | [] => None
  | _ :: rest =>
    match match_version n with
    | Some v => Some v
    | None => search rest
    end
  end.

(** The loop that fills [versions]: a name without a match adds nothing. *)
Fixpoint collect (names : list str) : list str :=
  match names with
  | [] => []
  | n :: names' =>
    match search n with
    | Some v => v :: collect names'
    | None => collect names'
    end
  end.

(** [re.split(r'[\.-]', core)]: the pieces between the separators, empty
    pieces kept. *)
Definition is_sep (c : N) : bool := (c =? chr ".") || (c =? chr "-").

Fixpoint split (core : str) : list str :=
  match core with
  | [] => [[]]
  | c :: r =>
    if is_sep c then [] :: split r
    else match split r with
         | p :: ps => (c :: p) :: ps
         | [] => [[c]]
         end
  end.

(** ** Version keys and their comparison *)

(** An element of a key: [int(p)] when that succeeds, else [p] itself. *)
Inductive token : Type :=
| TInt (z : Z)
| TStr (s : str).

Definition type_name (t : token) : str :=
  match t with
  | TInt _ => u "int"
  | TStr _ => u "str"
  end.

(** [a < b] on [str]: code point by code point, a proper prefix is less. *)
Fixpoint str_ltb (a b : str) : bool :=
  match a, b with
  | _, [] => false
  | [], _ :: _ => true
  | x :: a', y :: b' => if x =? y then str_ltb a' b' else x <? y
  end.

(** [x == y]: an [int] never equals a [str], and nothing is raised. *)
Definition tok_eqb (x y : token) : bool :=
  match x, y with
  | TInt a, TInt b => (a =? b)%Z
  | TStr a, TStr b => bool_decide (a = b)
  | _, _ => false
  end.

(** [x < y]: defined within a type only. *)
Definition tok_lt (x y : token) : result bool :=
  match x, y with
  | TInt a, TInt b => Ok (a <? b)%Z
  | TStr a, TStr b => Ok (str_ltb a b)
  | _, _ => Raise (TypeError (type_name x) (type_name y))
  end.

(** [a < b] on lists: the first index where the elements are not equal
    decides, by [<] on those two elements; without such an index the shorter
    list is less. *)
Fixpoint list_lt (a b : list token) : result bool :=
  match a, b with
  | x :: a', y :: b' => if tok_eqb x y then list_lt a' b' else tok_lt x y
  | [], _ :: _ => Ok true
  | _, [] => Ok false
  end.

(** ** [sorted(iterable, key=..., reverse=...)] *)

Section Sorted.
Context {A K : Type}.
Variable lt : K -> K -> result bool.

(** Insertion in front of a sorted list: [x] passes the elements that are
    less than it and stops before the first that is not, so it stays in
    front of its equals.  A comparison that raises ends the sort. *)
Fixpoint insort (x : K * A) (l : list (K * A)) : result (list (K * A)) :=
  match l with
  | [] => Ok [x]
  | y :: l' =>
    rbind (lt y.1 x.1) (fun b =>
      if b then rmap (cons y) (insort x l') else Ok (x :: y :: l'))
  end.

(** A stable ascending sort that compares with [lt] only.  The interpreter
    sorts by merging runs and so asks for other comparisons than this
    insertion sort; [sorted_ok_iff] and [selection_independent_of_order] show
    that neither the lists on which the sort returns nor the key that comes
    first depend on which comparisons are asked for, or in which order. *)
Fixpoint sort (l : list (K * A)) : result (list (K * A)) :=
  match l with
  | [] => Ok []
  | x :: l' => rbind (sort l') (insort x)
  end.

(** The keys are computed once, the list is sorted on them, and with
    [reverse] it is reversed before and after, which keeps equal elements
    in their first order. *)
Definition sorted (key : A -> K) (reverse : bool) (l : list A) : result (list A) :=
  let keyed := (fun x => (key x, x)) <$> l in
  let keyed := if reverse then list.reverse keyed else keyed in
  rmap (fun s => snd <$> (if reverse then list.reverse s else s)) (sort keyed).
End Sorted.

(** ** The steps of a call, and the monad that records them *)

Inductive step : Type :=
| Call_urlopen | Call_decode | Call_findall | Call_search | Call_sorted.

Definition M (A : Type) : Type := (list step * result A)%type.

Definition ret {A} (a : A) : M A := ([], Ok a).
Definition raise {A} (e : exn) : M A := ([], Raise e).
Definition perform {A} (s : step) (r : result A) : M A := ([s], r).

Definition bind {A B} (m : M A) (f : A -> M B) : M B :=
  match m.2 with
  | Ok a => (m.1 ++ (f a).1, (f a).2)
  | Raise e => (m.1, Raise e)
  end.

(** [try: body except Exception as e: handler(e)] *)
Definition try_except {A} (body : M A) (handler : exn -> M A) : M A :=
  match body.2 with
  | Ok _ => body
  | Raise e => (body.1 ++ (handler e).1, (handler e).2)
  end.

Declare Scope py_scope.
Delimit Scope py_scope with py.
Notation "x <- m ;; k" := (bind m (fun x => k))
  (at level 100, m at next level, right associativity) : py_scope.

(** ** [set(versions)] *)

(** The order in which an interpreter iterates the set that it builds from a
    list.  Python leaves this order open: it depends on the hashes of the
    members, which change from one process to the next, and on the order of
    the insertions.  A call therefore takes the order as given; all that is
    known of it is that it lists every member of the list once. *)
Record set_order : Type := {
  iterate : list str -> list str;
  iterate_NoDup : forall l, NoDup (iterate l);
  iterate_members : forall l x, x ∈ iterate l <-> x ∈ l
}.

(** ** [int], [ver_key] and [run] *)

Section Resolver.
(** The iteration order of sets in the interpreter that runs the call. *)
Variable order : set_order.

(** The decimal digit value of a code point outside ASCII in the Unicode
    database of the interpreter, when it has one. *)
Variable unicode_decimal : N -> option N.

(** The white space that [int] strips once the text is ASCII. *)
Definition py_isspace (c : N) : bool := ((0x09 <=? c) && (c <=? 0x0D)) || (c =? 0x20).

Definition is_digit (c : N) : bool := (48 <=? c) && (c <=? 57).

(** Before parsing, white space outside ASCII becomes a blank and a decimal
    digit outside ASCII becomes its ASCII digit; any other character outside
    ASCII makes the literal invalid. *)
Definition to_ascii (c : N) : N :=
  if c <? 127 then c
  else if is_space c then 0x20
  else match unicode_decimal c with
       | Some d => if d <? 10 then 48 + d else chr "?"
       | None => chr "?"
       end.

(** Digits in groups separated by single underscores: [prev] tells that the
    last character was an underscore (or that there was none yet). *)
Fixpoint groups_ok (prev : bool) (run : list N) : bool :=
  match run with
  | [] => negb prev
  | c :: r =>
    if c =? chr "_" then negb prev && groups_ok true r else groups_ok false r
  end.

Definition value (digits : list N) : Z :=
  fold_left (fun acc d => 10 * acc + Z.of_N (d - 48))%Z digits 0%Z.

(** The longest literal that [int] converts by default. *)
Definition int_max_str_digits : nat := 4300.

(** [int(p)] for a [str]: [None] stands for [ValueError].  Blanks around an
    optional sign and the digits are accepted, nothing else. *)
Definition int (p : str) : option Z :=
  let s := (span py_isspace (to_ascii <$> p)).2 in
  let '(sign, s) :=
    match s with
    | c :: s' =>
      if c =? chr "+" then (1%Z, s')
      else if c =? chr "-" then ((-1)%Z, s')
      else (1%Z, s)
    | [] => (1%Z, s)
    end in
  let '(run, rest) := span (fun c => is_digit c || (c =? chr "_")) s in
  let digits := List.filter is_digit run in
  if groups_ok true run && (length digits <=? int_max_str_digits)%nat &&
     forallb py_isspace rest
  then Some (sign * value digits)%Z
  else None.

(** [ver_key(v)] *)
Definition ver_key (v : str) : list token :=
  let core := drop 1 v in
  let parts := split core in
  (fun p => match int p with Some z => TInt z | None => TStr p end) <$> parts.

(** The outcome of [urlopen(URL, timeout=15)] and [resp.read()]: the body,
    or the exception that one of them raised. *)
Definition response : Type := result (list byte).

Definition FETCH_FAILED : str := u "Failed to fetch versions: ".
Definition NO_VERSIONS : str := u "No versions found in GCS listing.".

Local Open Scope py_scope.

(** [LookupModule.run] *)
Definition run (net : response) : M (list str) :=
  data <- try_except
            (body <- perform Call_urlopen net ;;
             perform Call_decode (decode ignore body))
            (fun e => raise (AnsibleError (FETCH_FAILED ++ describe e))) ;;
  names <- perform Call_findall (Ok (findall data)) ;;
  versions <- perform Call_search (Ok (collect names)) ;;
  match versions with
  | [] => raise (AnsibleError NO_VERSIONS)
  | _ :: _ =>
    let candidates := iterate order versions in
    versions <- perform Call_sorted (sorted list_lt ver_key true candidates) ;;
    match versions with
    | v :: _ => ret [v]
    | [] => raise IndexError
    end
  end.
End Resolver.

(** * The vocabulary of the statements *)

Section Orders.
Context {A K : Type}.
Variable lt : K -> K -> result bool.

(** Every two elements of [l] can be compared. *)
Definition comparable (l : list (K * A)) : Prop :=
  forall x y, x ∈ l -> y ∈ l -> is_ok (lt x.1 y.1) = true.

(** In an ascending list no element is less than one before it. *)
Definition ascending : list (K * A) -> Prop :=
  StronglySorted (fun x y : K * A => lt y.1 x.1 = Ok false).
End Orders.

(** The object names and the versions that a call extracts from a body. *)
Definition names_of (body : list byte) : list str :=
  match decode ignore body with
  | Ok data => findall data
  | Raise _ => []
  end.

Definition extracted (body : list byte) : list str := collect (names_of body).

(** The candidates, in the order in which [sorted] receives them. *)
Definition candidates (order : set_order) (body : list byte) : list str :=
  iterate order (extracted body).

(** Two iteration orders for the examples: the order of the members in
    stdpp's finite sets, which depends on the members alone, and the order in
    which the members were first inserted. *)
Definition canonical : set_order := {|
  iterate l := elements (list_to_set l : gset str);
  iterate_NoDup l := NoDup_elements _;
  iterate_members l x := iff_trans (elem_of_elements _ x) (elem_of_list_to_set x l)
|}.

Definition first_seen : set_order.
Proof.
  refine {| iterate l := list.reverse (remove_dups (list.reverse l)) |}.
  - intros l. rewrite reverse_Permutation. apply NoDup_remove_dups.
  - intros l x. by rewrite elem_of_reverse, elem_of_remove_dups, elem_of_reverse.
Defined.

Definition STEPS_TO_SEARCH : list step :=
  [Call_urlopen; Call_decode; Call_findall; Call_search].

(** [v] is a path segment of [n] between two slashes, after the prefix [pre]:
    the letter v and then one or more characters, none of them a slash. *)
Definition version_segment (n pre v post : str) : Prop :=
  n = pre ++ SLASH :: v ++ SLASH :: post /\
  exists seg, v = chr "v" :: seg /\ seg <> [] /\ SLASH ∉ seg.

(** The keys of [versions] can all be compared with each other. *)
Definition keys_comparable (unicode_decimal : N -> option N) (versions : list str) : Prop :=
  forall v w, v ∈ versions -> w ∈ versions ->
    is_ok (list_lt (ver_key unicode_decimal v) (ver_key unicode_decimal w)) = true.

(** ** Listings for the examples *)

(** One object of a listing: an opening brace, the name field with [path] as
    its value, a closing brace. *)
Definition entry (path : string) : list byte :=
  bytes_of "{" ++ [x22]%byte ++ bytes_of "name" ++ [x22]%byte ++ bytes_of ": " ++
  [x22]%byte ++ bytes_of path ++ [x22]%byte ++ bytes_of "}".

(** The objects of a listing, with a comma and a blank between two of them. *)
Fixpoint entries (paths : list string) : list byte :=
  match paths with
  | [] => []
  | [p] => entry p
  | p :: paths' => entry p ++ bytes_of ", " ++ entries paths'
  end.

(** A listing body with one object per path. *)
Definition listing (paths : list string) : list byte :=
  bytes_of "{" ++ [x22]%byte ++ bytes_of "items" ++ [x22]%byte ++ bytes_of ": [" ++
  entries paths ++ bytes_of "]}".

(** An interpreter whose Unicode database is not consulted: the examples are
    ASCII. *)
Definition ascii_only : N -> option N := fun _ => None.

Definition three_releases : list string :=
  ["genlayer-node/bin/amd64/v0.3.9/node"; "genlayer-node/bin/amd64/v0.3.10/node";
   "genlayer-node/bin/amd64/v0.3.2/node"]%string.

Definition release_twice_more : list string :=
  ["genlayer-node/bin/amd64/v0.3.10/genlayer-node.tar.gz";
   "genlayer-node/bin/amd64/v0.3.9/node";
   "genlayer-node/bin/amd64/v0.3.10/node";
   "genlayer-node/bin/amd64/v0.3.10/checksums.txt";
   "genlayer-node/bin/amd64/v0.3.2/node"]%string.

Definition tie_once : list string := ["a/v1-0/x"; "a/v1.0/y"]%string.

Definition tie_twice : list string := ["a/v1.0/x"; "a/v1-0/x"; "a/v1.0/y"]%string.

Definition release_and_candidate : list string :=
  ["genlayer-node/bin/amd64/v0.4.0/node"; "genlayer-node/bin/amd64/v0.4.0rc1/node"]%string.

Definition candidate_and_build : list string :=
  ["genlayer-node/bin/amd64/v1.0.0-rc1/node"; "genlayer-node/bin/amd64/v1.0.0-2/node"]%string.

(** ** Shapes of versions *)

(** A token that is one or more ASCII digits, not more than [int] converts. *)
Definition plain_number (p : str) : bool :=
  match p with
  | [] => false
  | _ :: _ => forallb is_digit p && (length p <=? int_max_str_digits)%nat
  end.

(** The pieces of a core put together again, a dot between two of them. *)
Fixpoint dotted (parts : list str) : str :=
  match parts with
  | [] => []
  | [p] => p
  | p :: parts' => p ++ chr "." :: dotted parts'
  end.

(** A character with the two separators taken for one. *)
Definition merge_sep (c : N) : N := if is_sep c then chr "." else c.

(** The bytes that can start no UTF-8 sequence. *)
Definition invalid_start (b : byte) : bool :=
  let n := Byte.to_N b in ((0x80 <=? n) && (n <? 0xC2)) || (0xF5 <=? n).

Definition is_ascii_byte (b : byte) : bool := Byte.to_N b <? 0x80.

(** * Properties *)

(** ** The integer parser on examples *)

Example int_accepts :
  int ascii_only <$> [u "10"; u "0010"; u " +1_0 "; u "-5"] =
  [Some 10%Z; Some 10%Z; Some 10%Z; Some (-5)%Z].
Proof. reflexivity. Qed.

Example int_rejects :
  int ascii_only <$> [u ""; u "rc1"; u "0rc1"; u "1__0"; u "_1"; u "1_"; u "+ 5"; u "1 0"] =
  [None; None; None; None; None; None; None; None].
Proof. reflexivity. Qed.

Example ver_key_mixed :
  ver_key ascii_only (u "v0.3.10-rc1") = [TInt 0; TInt 3; TInt 10; TStr (u "rc1")].
Proof. reflexivity. Qed.

Example split_keeps_empty_pieces : split (u "1..2-") = [u "1"; u ""; u "2"; u ""].
Proof. reflexivity. Qed.

(** ** The order on keys *)

Lemma str_ltb_irrefl (a : str) : str_ltb a a = false.
Proof. induction a as [|x a IH]; simpl; [done|]. by rewrite N.eqb_refl. Qed.

Lemma str_ltb_trans (a b c : str) :
  str_ltb a b = true -> str_ltb b c = true -> str_ltb a c = true.
Proof.
  revert b c. induction a as [|x a IH]; intros [|y b] [|z c]; simpl; try done.
  destruct (N.eqb_spec x y) as [->|Hxy], (N.eqb_spec y z) as [->|Hyz]; intros H1 H2.
  - eauto.
  - done.
  - destruct (N.eqb_spec x z); [lia|done].
  - apply N.ltb_lt in H1, H2. destruct (N.eqb_spec x z); [lia|]. apply N.ltb_lt. lia.
Qed.

Lemma str_ltb_asym (a b : str) : str_ltb a b = true -> str_ltb b a = false.
Proof.
  intros H. destruct (str_ltb b a) eqn:E; [|done].
  by rewrite <- (str_ltb_irrefl a), (str_ltb_trans a b a).
Qed.

Lemma str_ltb_connex (a b : str) :
  str_ltb a b = false -> a = b \/ str_ltb b a = true.
Proof.
  revert b. induction a as [|x a IH]; intros [|y b]; simpl; auto; try done.
  rewrite (N.eqb_sym y x). destruct (N.eqb_spec x y) as [->|Hxy]; intros H.
  - destruct (IH _ H) as [->|]; auto.
  - right. apply N.ltb_ge in H. apply N.ltb_lt. lia.
Qed.

Lemma tok_eqb_eq (x y : token) : tok_eqb x y = true <-> x = y.
Proof.
  destruct x as [a|a], y as [b|b]; simpl; try (split; congruence).
  - rewrite Z.eqb_eq. split; congruence.
  - rewrite bool_decide_eq_true. split; congruence.
Qed.

Lemma tok_eqb_refl (x : token) : tok_eqb x x = true.
Proof. by apply tok_eqb_eq. Qed.

Lemma tok_eqb_sym (x y : token) : tok_eqb x y = tok_eqb y x.
Proof.
  destruct (tok_eqb x y) eqn:E1, (tok_eqb y x) eqn:E2; try done.
  - apply tok_eqb_eq in E1 as ->. by rewrite tok_eqb_refl in E2.
  - apply tok_eqb_eq in E2 as ->. by rewrite tok_eqb_refl in E1.
Qed.

Lemma tok_lt_asym (x y : token) : tok_lt x y = Ok true -> tok_lt y x = Ok false.
Proof.
  destruct x as [a|a], y as [b|b]; simpl; try done; intros [= H]; f_equal.
  - lia.
  - by apply str_ltb_asym.
Qed.

Lemma tok_lt_trans (x y z : token) :
  tok_lt x y = Ok true -> tok_lt y z = Ok true ->
  tok_lt x z = Ok true /\ tok_eqb x z = false.
Proof.
  destruct x as [a|a], y as [b|b], z as [c|c]; simpl; try done; intros [= H1] [= H2].
  - split; [f_equal|]; lia.
  - split; [f_equal; by apply str_ltb_trans with b|].
    apply bool_decide_eq_false. intros ->.
    by rewrite (str_ltb_asym _ _ H1) in H2.
Qed.

Lemma tok_lt_connex (x y : token) :
  tok_lt x y = Ok false -> x = y \/ tok_lt y x = Ok true.
Proof.
  destruct x as [a|a], y as [b|b]; simpl; try done; intros [= H].
  - destruct (decide (a = b)) as [->|]; [auto|]. right. f_equal. lia.
  - destruct (str_ltb_connex _ _ H) as [-> | ->]; auto.
Qed.

Lemma tok_lt_not_eq (x y : token) : tok_lt x y = Ok true -> tok_eqb x y = false.
Proof.
  intros H. destruct (tok_eqb x y) eqn:E; [|done].
  apply tok_eqb_eq in E as ->. by rewrite (tok_lt_asym _ _ H) in H.
Qed.

Lemma list_lt_irrefl (a : list token) : list_lt a a = Ok false.
Proof. induction a as [|x a IH]; simpl; [done|]. by rewrite tok_eqb_refl. Qed.

Lemma list_lt_asym (a b : list token) :
  list_lt a b = Ok true -> list_lt b a = Ok false.
Proof.
  revert b. induction a as [|x a IH]; intros [|y b]; simpl; try done.
  rewrite (tok_eqb_sym y x). destruct (tok_eqb x y); [apply IH|apply tok_lt_asym].
Qed.

Lemma list_lt_trans (a b c : list token) :
  list_lt a b = Ok true -> list_lt b c = Ok true -> list_lt a c = Ok true.
Proof.
  revert b c. induction a as [|x a IH]; intros [|y b] [|z c]; simpl; try done.
  destruct (tok_eqb x y) eqn:Exy, (tok_eqb y z) eqn:Eyz; intros H1 H2.
  - apply tok_eqb_eq in Exy as ->. rewrite Eyz. eauto.
  - apply tok_eqb_eq in Exy as ->. by rewrite Eyz.
  - apply tok_eqb_eq in Eyz as <-. by rewrite Exy.
  - by destruct (tok_lt_trans _ _ _ H1 H2) as [-> ->].
Qed.

Lemma list_lt_connex (a b : list token) :
  list_lt a b = Ok false -> a = b \/ list_lt b a = Ok true.
Proof.
  revert b. induction a as [|x a IH]; intros [|y b]; simpl; auto; try done.
  rewrite (tok_eqb_sym y x). destruct (tok_eqb x y) eqn:E; intros H.
  - apply tok_eqb_eq in E as ->. destruct (IH _ H) as [->|]; auto.
  - destruct (tok_lt_connex _ _ H) as [->|]; auto. by rewrite tok_eqb_refl in E.
Qed.

(** Not being less is transitive where the outer pair can be compared. *)
Lemma list_lt_le_trans (a b c : list token) :
  list_lt b a = Ok false -> list_lt c b = Ok false ->
  is_ok (list_lt c a) = true -> list_lt c a = Ok false.
Proof.
  intros Hba Hcb Hok. destruct (list_lt c a) as [[]|] eqn:Hca; try done.
  destruct (list_lt_connex _ _ Hba) as [->|Hab]; [congruence|].
  by rewrite (list_lt_trans _ _ _ Hca Hab) in Hcb.
Qed.

(** Two keys can be compared one way exactly when they can the other way. *)
Lemma list_lt_ok_sym (a b : list token) :
  is_ok (list_lt a b) = is_ok (list_lt b a).
Proof.
  revert b. induction a as [|x a IH]; intros [|y b]; simpl; try done.
  rewrite (tok_eqb_sym y x). destruct (tok_eqb x y); [apply IH|].
  by destruct x, y.
Qed.

Lemma tok_lt_ok_same_type (x y : token) :
  is_ok (tok_lt x y) = bool_decide (type_name x = type_name y).
Proof. by destruct x, y. Qed.

Lemma list_lt_between (a b c : list token) :
  is_ok (list_lt a c) = false -> is_ok (list_lt b a) = true ->
  is_ok (list_lt b c) = true -> list_lt b a = list_lt b c.
Proof.
  revert b c. induction a as [|x a IH]; intros [|y b] [|z c]; simpl; try done.
  destruct (tok_eqb x z) eqn:Exz.
  - apply tok_eqb_eq in Exz as ->. destruct (tok_eqb y z); [apply IH|done].
  - intros Hxz. rewrite tok_lt_ok_same_type in Hxz. apply bool_decide_eq_false in Hxz.
    destruct (tok_eqb y x) eqn:Eyx.
    + apply tok_eqb_eq in Eyx as ->. rewrite Exz, tok_lt_ok_same_type.
      by intros _ ?%bool_decide_eq_true.
    + rewrite tok_lt_ok_same_type. intros Hyx%bool_decide_eq_true.
      destruct (tok_eqb y z) eqn:Eyz.
      * apply tok_eqb_eq in Eyz as ->. congruence.
      * rewrite tok_lt_ok_same_type. intros Hyz%bool_decide_eq_true. congruence.
Qed.

Lemma list_lt_extension (k : list token) (t : token) (ext : list token) :
  list_lt k (k ++ t :: ext) = Ok true /\ list_lt (k ++ t :: ext) k = Ok false.
Proof.
  induction k as [|x k [IH1 IH2]]; simpl; [done|]. by rewrite tok_eqb_refl.
Qed.

Lemma tok_lt_raise (x y : token) e :
  tok_lt x y = Raise e -> exists l r, e = TypeError l r.
Proof. destruct x, y; simpl; try done; intros [= <-]; eauto. Qed.

Lemma list_lt_raise (a b : list token) e :
  list_lt a b = Raise e -> exists l r, e = TypeError l r.
Proof.
  revert b. induction a as [|x a IH]; intros [|y b]; simpl; try done.
  destruct (tok_eqb x y); [apply IH|apply tok_lt_raise].
Qed.

(** ** The sort *)

Lemma rbind_ok {A B} (m : result A) (f : A -> result B) (b : B) :
  rbind m f = Ok b -> exists a, m = Ok a /\ f a = Ok b.
Proof. destruct m as [a|e]; simpl; [eauto|done]. Qed.

Lemma rmap_ok {A B} (f : A -> B) (m : result A) (b : B) :
  rmap f m = Ok b -> exists a, m = Ok a /\ b = f a.
Proof. destruct m as [a|e]; simpl; [|done]. intros [= <-]. eauto. Qed.

Lemma is_ok_rmap {A B} (f : A -> B) (m : result A) : is_ok (rmap f m) = is_ok m.
Proof. by destruct m. Qed.

Lemma is_ok_true {A} (m : result A) : is_ok m = true -> exists a, m = Ok a.
Proof. destruct m; [eauto|done]. Qed.

Section SortedFacts.
Context {A K : Type} (lt : K -> K -> result bool).

Lemma insort_perm (x : K * A) l r : insort lt x l = Ok r -> r ≡ₚ x :: l.
Proof.
  revert r. induction l as [|y l IH]; simpl; intros r.
  - by intros [= <-].
  - intros H. apply rbind_ok in H as ([] & _ & H).
    + apply rmap_ok in H as (r' & H & ->). rewrite (IH _ H). apply Permutation_swap.
    + by injection H as <-.
Qed.

Lemma insort_ok (x : K * A) l :
  (forall y, y ∈ l -> is_ok (lt y.1 x.1) = true) ->
  exists r, insort lt x l = Ok r.
Proof.
  induction l as [|y l IH]; simpl; intros H; [eauto|].
  assert (Hy := H y ltac:(left)).
  destruct (lt y.1 x.1) as [[]|]; try done; simpl; [|eauto].
  destruct IH as [r ->]; [|simpl; eauto].
  intros z Hz. apply H. by right.
Qed.

Lemma sort_perm (l : list (K * A)) s : sort lt l = Ok s -> s ≡ₚ l.
Proof.
  revert s. induction l as [|x l IH]; simpl; intros s.
  - by intros [= <-].
  - intros H. apply rbind_ok in H as (s' & Hs' & H).
    rewrite (insort_perm _ _ _ H). by rewrite (IH _ Hs').
Qed.

Lemma comparable_cons (x : K * A) l : comparable lt (x :: l) -> comparable lt l.
Proof. intros H y z Hy Hz. apply H; by right. Qed.

Lemma sort_ok (l : list (K * A)) : comparable lt l -> exists s, sort lt l = Ok s.
Proof.
  induction l as [|x l IH]; simpl; intros H; [eauto|].
  destruct (IH (comparable_cons _ _ H)) as [s Hs]. rewrite Hs. simpl.
  apply insort_ok. intros y Hy. apply H; [right|left].
  by rewrite <- (sort_perm _ _ Hs).
Qed.

(** Where the inserted element ends up: last, behind elements that are all
    less than it, or in front of one that is not. *)
Lemma insort_last (x : K * A) l r :
  insort lt x l = Ok r ->
  (last r = Some x /\ forall y, y ∈ l -> lt y.1 x.1 = Ok true) \/
  (last r = last l /\ exists y, y ∈ l /\ lt y.1 x.1 = Ok false).
Proof.
  revert r. induction l as [|y l IH]; simpl; intros r.
  - intros [= <-]. left. split; [done|]. by intros y ?%elem_of_nil.
  - intros H. apply rbind_ok in H as ([] & Hlt & H).
    + apply rmap_ok in H as (r' & H & ->).
      assert (r' <> []) as Hne.
      { intros ->. apply insort_perm, Permutation_nil_cons in H. done. }
      destruct (IH _ H) as [[Hl Hall]|[Hl (z & Hz & Hzx)]].
      * left. split.
        -- rewrite last_cons. by rewrite Hl.
        -- intros z [->|Hz]%elem_of_cons; auto.
      * right. split.
        -- rewrite !last_cons, Hl. destruct l; [by apply elem_of_nil in Hz|done].
        -- exists z. split; [by right|done].
    + injection H as <-. right. split; [done|].
      exists y. split; [left|done].
Qed.

Lemma sorted_perm (key : A -> K) (reverse : bool) (l r : list A) :
  sorted lt key reverse l = Ok r -> r ≡ₚ l.
Proof.
  unfold sorted. intros (s & Hs%sort_perm & ->)%rmap_ok.
  transitivity (snd <$> s).
  { destruct reverse; [by rewrite reverse_Permutation|done]. }
  rewrite Hs. transitivity (snd <$> ((fun x => (key x, x)) <$> l)).
  { destruct reverse; [by rewrite reverse_Permutation|done]. }
  by rewrite <- list_fmap_compose, list_fmap_id.
Qed.

(** The sort raises nothing of its own: an exception comes from [lt]. *)
Lemma insort_raise (x : K * A) l e :
  insort lt x l = Raise e -> exists a b, lt a b = Raise e.
Proof.
  induction l as [|y l IH]; simpl; [done|].
  destruct (lt y.1 x.1) as [[]|e'] eqn:Hlt; simpl; [|done|intros [= <-]; eauto].
  destruct (insort lt x l); simpl; [done|]. intros [= <-]. by apply IH.
Qed.

Lemma sort_raise (l : list (K * A)) e :
  sort lt l = Raise e -> exists a b, lt a b = Raise e.
Proof.
  induction l as [|x l IH]; simpl; [done|].
  destruct (sort lt l) as [s|e']; simpl; [apply insort_raise|].
  intros [= <-]. by apply IH.
Qed.

Lemma sorted_raise (key : A -> K) (reverse : bool) (l : list A) e :
  sorted lt key reverse l = Raise e -> exists a b, lt a b = Raise e.
Proof.
  unfold sorted. destruct (sort lt _) as [s|e'] eqn:Hs; simpl; [done|].
  intros [= <-]. by apply sort_raise in Hs.
Qed.

Hypothesis lt_irrefl : forall a, lt a a = Ok false.
Hypothesis lt_asym : forall a b, lt a b = Ok true -> lt b a = Ok false.
Hypothesis lt_le_trans : forall a b c,
  lt b a = Ok false -> lt c b = Ok false -> is_ok (lt c a) = true -> lt c a = Ok false.

(** The last element of the sorted list is less than none. *)
Lemma sort_last_max (l : list (K * A)) s m :
  comparable lt l -> sort lt l = Ok s -> last s = Some m ->
  forall y, y ∈ l -> lt m.1 y.1 = Ok false.
Proof.
  revert s m. induction l as [|x l IH]; simpl; intros s m Hc.
  - by intros _ _ y ?%elem_of_nil.
  - intros H Hm. apply rbind_ok in H as (s' & Hs' & H).
    pose proof (sort_perm _ _ Hs') as Hp.
    destruct (insort_last _ _ _ H) as [[Hl Hall]|[Hl (z & Hz & Hzx)]].
    + rewrite Hl in Hm. injection Hm as <-.
      intros y [->|Hy]%elem_of_cons; [apply lt_irrefl|].
      apply lt_asym, Hall. by rewrite Hp.
    + rewrite Hl in Hm.
      assert (forall y, y ∈ l -> lt m.1 y.1 = Ok false) as Hmax.
      { by apply (IH s'); [apply (comparable_cons x)|..]. }
      assert (m ∈ l) as Hml.
      { rewrite <- Hp. by apply last_Some_elem_of. }
      intros y [->|Hy]%elem_of_cons; [|auto].
      apply lt_le_trans with z.1; [done| |].
      * apply Hmax. by rewrite <- Hp.
      * apply Hc; [by right|left].
Qed.

(** [sorted(l, key=key, reverse=True)] succeeds on a list whose keys can all
    be compared, returns the elements of [l], and puts first an element whose
    key is less than no other. *)
Lemma sorted_reverse_head (key : A -> K) (l : list A) :
  l <> [] ->
  (forall v w, v ∈ l -> w ∈ l -> is_ok (lt (key v) (key w)) = true) ->
  exists v rest,
    sorted lt key true l = Ok (v :: rest) /\
    v :: rest ≡ₚ l /\
    forall w, w ∈ l -> lt (key v) (key w) = Ok false.
Proof.
  intros Hne Hc. unfold sorted.
  set (keyed := list.reverse ((fun x => (key x, x)) <$> l)).
  assert (forall p, p ∈ keyed -> p.2 ∈ l /\ p.1 = key p.2) as Hin.
  { intros p Hp. unfold keyed in Hp. rewrite elem_of_reverse in Hp.
    apply list_elem_of_fmap in Hp as (x & -> & Hx). done. }
  assert (comparable lt keyed) as Hck.
  { intros x y [? ->]%Hin [? ->]%Hin. by apply Hc. }
  destruct (sort_ok _ Hck) as [s Hs]. rewrite Hs. simpl.
  pose proof (sort_perm _ _ Hs) as Hp.
  assert (snd <$> list.reverse s ≡ₚ l) as Hpl.
  { rewrite reverse_Permutation, Hp. unfold keyed.
    rewrite reverse_Permutation, <- list_fmap_compose.
    by rewrite list_fmap_id. }
  destruct (last s) as [m|] eqn:Hm.
  - pose proof (sort_last_max _ _ _ Hck Hs Hm) as Hmax.
    assert (m ∈ keyed) as [_ Hk]%Hin.
    { rewrite <- Hp. by apply last_Some_elem_of. }
    rewrite <- head_reverse in Hm.
    destruct (list.reverse s) as [|m' s']; [done|]. injection Hm as ->.
    exists m.2, (snd <$> s'). split; [done|]. split; [done|].
    intros w Hw. rewrite <- Hk. apply (Hmax (key w, w)).
    unfold keyed. rewrite elem_of_reverse. apply list_elem_of_fmap. eauto.
  - apply last_None in Hm. subst s.
    apply Permutation_nil_l in Hp. unfold keyed in Hp.
    apply (f_equal length) in Hp. rewrite length_reverse, length_fmap in Hp.
    by destruct l.
Qed.
End SortedFacts.

(** ** When the sort succeeds *)

Section SortedOrder.
Context {A K : Type} (lt : K -> K -> result bool).

Hypothesis lt_irrefl : forall a, lt a a = Ok false.
Hypothesis lt_asym : forall a b, lt a b = Ok true -> lt b a = Ok false.
Hypothesis lt_le_trans : forall a b c,
  lt b a = Ok false -> lt c b = Ok false -> is_ok (lt c a) = true -> lt c a = Ok false.
Hypothesis lt_connex : forall a b, lt a b = Ok false -> a = b \/ lt b a = Ok true.
Hypothesis lt_ok_sym : forall a b, is_ok (lt a b) = is_ok (lt b a).
(** An element that can be compared with both of two elements that cannot
    be compared with each other stands on the same side of both. *)
Hypothesis lt_between : forall a b c,
  is_ok (lt a c) = false -> is_ok (lt b a) = true -> is_ok (lt b c) = true ->
  lt b a = lt b c.

Lemma insort_ascending (x : K * A) (l r : list (K * A)) :
  comparable lt (x :: l) -> ascending lt l -> insort lt x l = Ok r -> ascending lt r.
Proof.
  revert r. induction l as [|y l IH]; simpl; intros r Hc Hl.
  - intros [= <-]. by repeat constructor.
  - apply StronglySorted_inv in Hl as [Hl Hy].
    intros H. apply rbind_ok in H as ([] & Hlt & H).
    + apply rmap_ok in H as (r' & H & ->). constructor.
      * apply IH; [|done..]. intros a b Ha Hb.
        apply Hc; [apply elem_of_cons in Ha as [->|]|apply elem_of_cons in Hb as [->|]];
          try (left; done); right; by right.
      * rewrite (Forall_forall _ r'). intros z Hz.
        rewrite (insort_perm _ _ _ _ H) in Hz.
        apply elem_of_cons in Hz as [->|Hz]; [by apply lt_asym|].
        by rewrite Forall_forall in Hy; apply Hy.
    + injection H as <-. constructor; [by constructor|].
      constructor; [done|]. rewrite Forall_forall. intros z Hz.
      apply lt_le_trans with y.1; [done| |].
      * by rewrite Forall_forall in Hy; apply Hy.
      * apply Hc; [right; by right|left].
Qed.

(** The sort returns an ascending list when all the comparisons are
    defined. *)
Lemma sort_ascending (l s : list (K * A)) :
  comparable lt l -> sort lt l = Ok s -> ascending lt s.
Proof.
  revert s. induction l as [|x l IH]; simpl; intros s Hc.
  - intros [= <-]. constructor.
  - intros H. apply rbind_ok in H as (s' & Hs' & H).
    apply (insort_ascending x s'); [|by eapply IH, Hs'; apply (comparable_cons lt x)|done].
    intros a b Ha Hb. rewrite (sort_perm _ _ _ Hs') in Ha, Hb. by apply Hc.
Qed.

(** An insertion that succeeds in an ascending list shows that the new
    element can be compared with every element of the list, also with those
    behind the place where it stopped. *)
Lemma insort_ok_comparable (x : K * A) (l r : list (K * A)) :
  comparable lt l -> ascending lt l -> insort lt x l = Ok r ->
  forall y, y ∈ l -> is_ok (lt y.1 x.1) = true.
Proof.
  revert r. induction l as [|y l IH]; simpl; intros r Hc Hl.
  - by intros _ y ?%elem_of_nil.
  - apply StronglySorted_inv in Hl as [Hl Hy].
    intros H. apply rbind_ok in H as (b & Hlt & H).
    intros z [->|Hz]%elem_of_cons; [by rewrite Hlt|].
    destruct b.
    + apply rmap_ok in H as (r' & H & ->).
      by apply (IH r'); [apply (comparable_cons lt y)|..].
    + destruct (is_ok (lt z.1 x.1)) eqn:Hzx; [done|].
      assert (lt y.1 x.1 = lt y.1 z.1) as Hyz.
      { apply lt_between.
        - by rewrite lt_ok_sym.
        - by rewrite Hlt.
        - apply Hc; [left|by right]. }
      rewrite Hlt in Hyz. symmetry in Hyz.
      rewrite Forall_forall in Hy. pose proof (Hy z Hz) as Hzy. simpl in Hzy.
      destruct (lt_connex _ _ Hyz) as [Heq|Hzy']; [|congruence].
      by rewrite <- Heq, Hlt in Hzx.
Qed.

Lemma sort_ok_comparable (l s : list (K * A)) :
  sort lt l = Ok s -> comparable lt l.
Proof.
  revert s. induction l as [|x l IH]; simpl; intros s.
  - by intros _ y z ?%elem_of_nil.
  - intros H. apply rbind_ok in H as (s' & Hs' & H).
    pose proof (IH _ Hs') as Hc.
    assert (forall y, y ∈ l -> is_ok (lt y.1 x.1) = true) as Hx.
    { intros y Hy. apply (insort_ok_comparable x s' s); [|by apply (sort_ascending l)|done|].
      - intros a b Ha Hb. rewrite (sort_perm _ _ _ Hs') in Ha, Hb. by apply Hc.
      - by rewrite (sort_perm _ _ _ Hs'). }
    intros y z [->|Hy]%elem_of_cons [->|Hz]%elem_of_cons.
    + by rewrite lt_irrefl.
    + rewrite lt_ok_sym. by apply Hx.
    + by apply Hx.
    + by apply Hc.
Qed.

(** [sorted] succeeds exactly on the lists whose keys can all be compared
    with each other. *)
Lemma sorted_ok_iff (key : A -> K) (reverse : bool) (l : list A) :
  is_ok (sorted lt key reverse l) = true <->
  forall v w, v ∈ l -> w ∈ l -> is_ok (lt (key v) (key w)) = true.
Proof.
  unfold sorted. rewrite is_ok_rmap.
  set (keyed := (if reverse then _ else _)).
  assert (forall p, p ∈ keyed <-> exists v, p = (key v, v) /\ v ∈ l) as Hin.
  { intros p. unfold keyed. destruct reverse; [rewrite elem_of_reverse|];
      apply list_elem_of_fmap. }
  split.
  - intros (s & Hs)%is_ok_true v w Hv Hw.
    apply (sort_ok_comparable _ _ Hs (key v, v) (key w, w)); apply Hin; eauto.
  - intros Hc. destruct (sort_ok lt keyed) as [s ->]; [|done].
    intros x y (v & -> & Hv)%Hin (w & -> & Hw)%Hin. by apply Hc.
Qed.
End SortedOrder.

(** ** Decoding *)

Lemma is_ok_on_error h start len first reason rest :
  h <> strict -> is_ok (on_error h start len first reason rest) = is_ok rest.
Proof. destruct h; simpl; [done|done|]. intros _. apply is_ok_rmap. Qed.

(** With a handler other than [strict] the decoder returns a text for every
    input. *)
Lemma utf8_decode_lenient (h : errors) :
  h <> strict ->
  forall (n : nat) (bs : list byte) (pos : nat),
    (length bs <= n)%nat -> is_ok (utf8_decode h pos bs) = true.
Proof.
  intros Hh. induction n as [|n IH]; intros [|c1 r1] pos Hlen; try done.
  { simpl in Hlen. lia. }
  assert (forall p bs, (length bs <= length r1)%nat -> is_ok (utf8_decode h p bs) = true) as Hrec.
  { intros p bs Hbs. apply IH. simpl in Hlen. lia. }
  cbn [utf8_decode].
  repeat first
    [ rewrite is_ok_rmap
    | rewrite (is_ok_on_error h) by done
    | done
    | apply Hrec; simpl; lia
    | match goal with
      | |- context [if ?b then _ else _] => destruct b
      | |- context [match ?l with [] => _ | _ :: _ => _ end] => is_var l; destruct l
      end ].
Qed.

Lemma decode_ignore_ok (body : list byte) : exists data, decode ignore body = Ok data.
Proof. apply is_ok_true. by apply (utf8_decode_lenient ignore) with (length body). Qed.

(** ** Extraction of the version from a name *)

Lemma span_spec {A} (p : A -> bool) (l : list A) :
  l = (span p l).1 ++ (span p l).2 /\
  Forall (fun x => p x = true) (span p l).1 /\
  match (span p l).2 with
  | [] => True
  | y :: _ => p y = false
  end.
Proof.
  induction l as [|x l (IH1 & IH2 & IH3)]; simpl; [by repeat constructor|].
  destruct (p x) eqn:Hx; [|by repeat constructor].
  destruct (span p l) as [a b]. simpl in *. repeat split; [by f_equal|by constructor|done].
Qed.

Lemma span_app {A} (p : A -> bool) (a b : list A) (y : A) :
  Forall (fun x => p x = true) a -> p y = false ->
  span p (a ++ y :: b) = (a, y :: b).
Proof.
  intros Ha Hy. induction Ha as [|x a Hx _ IH]; simpl; [by rewrite Hy|].
  by rewrite Hx, IH.
Qed.

Lemma not_slash_Forall (seg : str) :
  SLASH ∉ seg <-> Forall (fun c => negb (c =? SLASH) = true) seg.
Proof.
  rewrite Forall_forall. split.
  - intros H c Hc. apply negb_true_iff, N.eqb_neq. intros ->. by apply H.
  - intros H Hin. apply H in Hin. by rewrite N.eqb_refl in Hin.
Qed.

Lemma match_version_iff (n v : str) :
  match_version n = Some v <-> exists post, version_segment n [] v post.
Proof.
  unfold match_version, version_segment. split.
  - destruct n as [|s [|c r]]; try done.
    destruct (N.eqb_spec s SLASH) as [->|]; [|done].
    destruct (N.eqb_spec c (chr "v")) as [->|]; [|done]. simpl.
    destruct (span_spec (fun c => negb (c =? SLASH)) r) as (Hr & Hseg & Hnext).
    destruct (span _ r) as [[|x seg] [|y post]]; try done. intros [= <-].
    simpl in *. apply negb_false_iff, N.eqb_eq in Hnext as ->.
    exists post. split; [by rewrite Hr|].
    exists (x :: seg). split; [done|]. split; [done|]. by apply not_slash_Forall.
  - intros (post & -> & seg & -> & Hne & Hseg).
    change (match span (fun c => negb (c =? SLASH)) (seg ++ SLASH :: post) with
            | ((_ :: _) as seg', _ :: _) => Some (chr "v" :: seg')
            | _ => None
            end = Some (chr "v" :: seg)).
    rewrite (span_app _ seg post SLASH); [by destruct seg| |done].
    by apply not_slash_Forall.
Qed.

Lemma version_segment_cons (c : N) (n pre v post : str) :
  version_segment (c :: n) (c :: pre) v post <-> version_segment n pre v post.
Proof.
  unfold version_segment. simpl. split; intros [H ?]; split; try done.
  - by injection H.
  - by rewrite H.
Qed.

Lemma version_segment_head (n pre v post : str) :
  version_segment n pre v post ->
  match pre with
  | [] => match_version n = Some v
  | c :: pre' => exists n', n = c :: n' /\ version_segment n' pre' v post
  end.
Proof.
  intros H. destruct pre as [|c pre'].
  - apply match_version_iff. eauto.
  - destruct n as [|c' n']; [by destruct H as [[=] _]|].
    assert (c' = c) as -> by (destruct H as [H _]; simpl in H; by injection H).
    exists n'. split; [done|]. exact (proj1 (version_segment_cons _ _ _ _ _) H).
Qed.

Lemma search_None (n : str) :
  search n = None <-> forall pre v post, ~ version_segment n pre v post.
Proof.
  induction n as [|c n IH]; cbn [search].
  - split; [|done]. intros _ pre v post [H _]. by destruct pre.
  - destruct (match_version (c :: n)) as [v|] eqn:Hm.
    + split; [done|]. intros H. apply match_version_iff in Hm as [post Hm].
      by destruct (H _ _ _ Hm).
    + rewrite IH. split.
      * intros H pre v post Hs. apply version_segment_head in Hs.
        destruct pre as [|c' pre']; [congruence|].
        destruct Hs as (n' & [= <- <-] & Hs). by apply H in Hs.
      * intros H pre v post Hs. apply (H (c :: pre) v post).
        by apply version_segment_cons.
Qed.

(** What [search] returns is a version segment, and no other one starts
    before it. *)
Lemma search_Some (n v : str) :
  search n = Some v ->
  exists pre post,
    version_segment n pre v post /\
    forall pre' v' post', version_segment n pre' v' post' ->
      (length pre <= length pre')%nat.
Proof.
  revert v. induction n as [|c n IH]; cbn [search]; intros v; [done|].
  destruct (match_version (c :: n)) as [v'|] eqn:Hm.
  - intros [= ->]. apply match_version_iff in Hm as [post Hm].
    exists [], post. split; [done|]. intros; simpl; lia.
  - intros (pre & post & Hs & Hmin)%IH.
    exists (c :: pre), post. split; [by apply version_segment_cons|].
    intros pre' v' post' Hs'. apply version_segment_head in Hs'.
    destruct pre' as [|c' pre']; [congruence|].
    destruct Hs' as (n' & [= <- <-] & Hs'). apply Hmin in Hs'. simpl. lia.
Qed.

(** A text is cut in one way only at the first occurrence of a character. *)
Lemma app_cons_unique {A} (a a' b b' : list A) (s : A) :
  s ∉ a -> s ∉ a' -> a ++ s :: b = a' ++ s :: b' -> a = a'.
Proof.
  revert a'. induction a as [|x a IH]; intros [|x' a'] Ha Ha'; simpl; try done.
  - intros [= -> _]. destruct Ha'. left.
  - intros [= -> _]. destruct Ha. left.
  - intros [= -> H]. f_equal. apply IH in H; [done|..].
    + intros ?. apply Ha. by right.
    + intros ?. apply Ha'. by right.
Qed.

Lemma version_segment_no_slash (n pre v post : str) :
  version_segment n pre v post -> SLASH ∉ v.
Proof.
  intros (_ & seg & -> & _ & Hseg) [[=]|?]%elem_of_cons. done.
Qed.

(** Two version segments that start at the same place are the same. *)
Lemma version_segment_unique (n pre v post pre' v' post' : str) :
  version_segment n pre v post -> version_segment n pre' v' post' ->
  length pre = length pre' -> v = v'.
Proof.
  intros H H' Hlen.
  pose proof (version_segment_no_slash _ _ _ _ H) as Hv.
  pose proof (version_segment_no_slash _ _ _ _ H') as Hv'.
  destruct H as [-> _], H' as [H' _].
  apply app_inj_1 in H' as [_ [= H']]; [|done].
  by apply app_cons_unique in H'.
Qed.

Lemma elem_of_collect (names : list str) (v : str) :
  v ∈ collect names <-> exists n, n ∈ names /\ search n = Some v.
Proof.
  induction names as [|n names IH]; simpl.
  - split; [by intros ?%elem_of_nil|]. by intros (n & ?%elem_of_nil & _).
  - destruct (search n) as [w|] eqn:Hn.
    + rewrite elem_of_cons, IH. split.
      * intros [->|(m & Hm & Hv)]; [exists n|exists m]; split; try done; [left|by right].
      * intros (m & [->|Hm]%elem_of_cons & Hv); [left; congruence|right; eauto].
    + rewrite IH. split.
      * intros (m & Hm & Hv). exists m. split; [by right|done].
      * intros (m & [->|Hm]%elem_of_cons & Hv); [congruence|eauto].
Qed.

Lemma search_Some_shape (n v : str) :
  search n = Some v -> head v = Some (chr "v") /\ SLASH ∉ v.
Proof.
  intros (pre & post & Hs & _)%search_Some. split.
  - by destruct Hs as (_ & seg & -> & _).
  - by apply version_segment_no_slash in Hs.
Qed.

(** ** Extraction of the names *)

Lemma strip_prefix_app (p s r : str) : strip_prefix p s = Some r -> s = p ++ r.
Proof.
  revert s. induction p as [|a p IH]; intros s; simpl.
  - by intros [= ->].
  - destruct s as [|b s]; [done|].
    destruct (N.eqb_spec a b) as [->|]; [|done]. intros H. by rewrite (IH _ H).
Qed.

(** A match of the first pattern is not empty, and the text after the match
    is what [match_name] returns with the name. *)
Lemma match_name_suffix (s name after : str) :
  match_name s = Some (name, after) ->
  exists m, s = m ++ after /\ (0 < length m)%nat /\ (QUOTE ∉ name) /\ name <> [].
Proof.
  unfold match_name.
  destruct (strip_prefix NAME_KEY s) as [r0|] eqn:Hp; [|done].
  apply strip_prefix_app in Hp as ->.
  destruct (span_spec is_space r0) as (Hr0 & _ & _).
  destruct (span is_space r0) as [sp [|q r2]]; [done|]. cbn [fst snd] in *.
  destruct (N.eqb_spec q QUOTE) as [->|]; [|done].
  destruct (span_spec (fun c => negb (c =? QUOTE)) r2) as (Hr2 & Hname & _).
  destruct (span _ r2) as [[|c nm] [|q' r4]]; try done.
  cbn [fst snd] in *. intros [= <- <-].
  exists (NAME_KEY ++ sp ++ (QUOTE :: c :: nm) ++ [q']).
  split; [|split; [|split]]; [|rewrite length_app; simpl; lia| |done].
  - by rewrite Hr0, Hr2, <- !app_assoc.
  - intros Hq. rewrite Forall_forall in Hname. apply Hname in Hq.
    by rewrite N.eqb_refl in Hq.
Qed.

Lemma findall_from_drop (k : nat) (s : str) :
  findall_from k s = findall_from 0 (drop k s).
Proof.
  revert k. induction s as [|c s IH]; intros [|k]; try done. simpl. apply IH.
Qed.

(** [findall] takes the match at the head of the text, if there is one, and
    goes on behind it; else it goes on at the next character. *)
Lemma findall_unfold (c : N) (rest : str) :
  findall (c :: rest) =
    match match_name (c :: rest) with
    | Some (name, after) => name :: findall after
    | None => findall rest
    end.
Proof.
  unfold findall. cbn [findall_from].
  destruct (match_name (c :: rest)) as [[name after]|] eqn:Hm; [|done].
  rewrite findall_from_drop. do 2 f_equal.
  apply match_name_suffix in Hm as (m & Hs & Hlen & _).
  destruct m as [|c' m]; [simpl in Hlen; lia|]. injection Hs as -> ->.
  rewrite length_app. replace (length m + length after - length after)%nat
    with (length m) by lia.
  apply drop_app_length.
Qed.

Lemma findall_nil : findall [] = [].
Proof. reflexivity. Qed.

(** ** One call, step by step *)

Section RunFacts.
Variable order : set_order.
Variable unicode_decimal : N -> option N.

Lemma run_failed (e : exn) :
  run order unicode_decimal (Raise e) =
    ([Call_urlopen], Raise (AnsibleError (FETCH_FAILED ++ describe e))).
Proof. reflexivity. Qed.

Lemma run_body (body : list byte) :
  run order unicode_decimal (Ok body) =
    match extracted body with
    | [] => (STEPS_TO_SEARCH, Raise (AnsibleError NO_VERSIONS))
    | _ :: _ =>
      (STEPS_TO_SEARCH ++ [Call_sorted],
       match sorted list_lt (ver_key unicode_decimal) true (candidates order body) with
       | Ok (v :: _) => Ok [v]
       | Ok [] => Raise IndexError
       | Raise e => Raise e
       end)
    end.
Proof.
  unfold candidates, extracted, names_of, run, bind, try_except, perform.
  destruct (decode_ignore_ok body) as [data Hd].
  cbn [fst snd app]. rewrite Hd. cbn [fst snd app].
  destruct (collect (findall data)) as [|v0 vs]; [done|].
  by destruct (sorted _ _ _ _) as [[|v l]|e].
Qed.
End RunFacts.

Lemma fetch_failed_not_no_versions (m : str) : FETCH_FAILED ++ m <> NO_VERSIONS.
Proof. by intros [=]. Qed.

Lemma elem_of_candidates (order : set_order) (body : list byte) (v : str) :
  v ∈ candidates order body <-> v ∈ extracted body.
Proof. apply iterate_members. Qed.

Lemma extracted_candidates (order : set_order) (body : list byte) (v : str) :
  v ∈ extracted body -> v ∈ candidates order body.
Proof. apply elem_of_candidates. Qed.

Lemma candidates_extracted (order : set_order) (body : list byte) (v : str) :
  v ∈ candidates order body -> v ∈ extracted body.
Proof. apply elem_of_candidates. Qed.

Lemma NoDup_candidates (order : set_order) (body : list byte) :
  NoDup (candidates order body).
Proof. apply iterate_NoDup. Qed.

Lemma elements_pair (v w : str) :
  v <> w ->
  elements ({[v; w]} : gset str) = [v; w] \/ elements ({[v; w]} : gset str) = [w; v].
Proof.
  intros Hne. apply Permutation_length_2_inv. symmetry.
  rewrite elements_union_singleton by set_solver. by rewrite elements_singleton.
Qed.

(** ** The outcome of a call on a body *)

Section Outcome.
Variable order : set_order.
Variable unicode_decimal : N -> option N.

(** [run] returns exactly when a version was extracted and the keys of the
    extracted versions can all be compared. *)
Lemma run_ok_iff (body : list byte) :
  is_ok (run order unicode_decimal (Ok body)).2 = true <->
  extracted body <> [] /\ keys_comparable unicode_decimal (extracted body).
Proof.
  rewrite run_body. destruct (extracted body) as [|v0 vs] eqn:Hx; cbn [snd].
  { split; [done|]. by intros [? _]. }
  pose proof (sorted_ok_iff list_lt list_lt_irrefl list_lt_asym list_lt_le_trans
                list_lt_connex list_lt_ok_sym list_lt_between
                (ver_key unicode_decimal) true (candidates order body)) as Hiff.
  assert (keys_comparable unicode_decimal (candidates order body) <-> keys_comparable unicode_decimal (v0 :: vs)) as Hk.
  { unfold keys_comparable. rewrite <- Hx.
    split; intros H v w Hv Hw; apply H;
      first [by apply extracted_candidates|by apply (candidates_extracted order)]. }
  rewrite <- Hk. unfold keys_comparable. rewrite <- Hiff.
  destruct (sorted _ _ _ _) as [[|v l]|e] eqn:Hs; simpl.
  - apply sorted_perm, Permutation_nil_l in Hs.
    assert (v0 ∈ candidates order body) as Hv0.
    { apply extracted_candidates. rewrite Hx. left. }
    rewrite <- Hs in Hv0. by apply elem_of_nil in Hv0.
  - split; [done|]. by intros [? _].
  - split; [done|]. by intros [? ?].
Qed.

(** On such a body [run] returns one extracted version, and no extracted
    version has a greater key. *)
Lemma run_returns_maximum (body : list byte) :
  extracted body <> [] -> keys_comparable unicode_decimal (extracted body) ->
  exists v,
    (run order unicode_decimal (Ok body)).2 = Ok [v] /\ v ∈ extracted body /\
    forall w, w ∈ extracted body ->
      list_lt (ver_key unicode_decimal v) (ver_key unicode_decimal w) = Ok false.
Proof.
  intros Hne Hc. rewrite run_body.
  destruct (extracted body) as [|v0 vs] eqn:Hx; [done|]. cbn [snd].
  destruct (sorted_reverse_head list_lt list_lt_irrefl list_lt_asym list_lt_le_trans
              (ver_key unicode_decimal) (candidates order body)) as (v & rest & -> & Hp & Hmax).
  - intros Hnil. assert (v0 ∈ candidates order body) as Hv0.
    { apply extracted_candidates. rewrite Hx. left. }
    rewrite Hnil in Hv0. by apply elem_of_nil in Hv0.
  - intros v w Hv%candidates_extracted Hw%candidates_extracted. rewrite Hx in Hv, Hw.
    by apply Hc.
  - exists v. split; [done|]. rewrite <- Hx. split.
    + apply (candidates_extracted order). rewrite <- Hp. left.
    + intros w Hw. by apply Hmax, extracted_candidates.
Qed.

(** Two extracted versions whose keys cannot be compared make [run] raise
    [TypeError]. *)
Lemma run_raises_TypeError (body : list byte) (v w : str) :
  v ∈ extracted body -> w ∈ extracted body ->
  is_ok (list_lt (ver_key unicode_decimal v) (ver_key unicode_decimal w)) = false ->
  exists l r, (run order unicode_decimal (Ok body)).2 = Raise (TypeError l r).
Proof.
  intros Hv Hw Hvw.
  destruct (is_ok (run order unicode_decimal (Ok body)).2) eqn:Hok.
  { apply run_ok_iff in Hok as [_ Hc]. by rewrite (Hc v w) in Hvw. }
  revert Hok. rewrite run_body.
  destruct (extracted body) as [|v0 vs] eqn:Hx; [by apply elem_of_nil in Hv|].
  cbn [snd]. rewrite <- Hx in Hv.
  destruct (sorted _ _ _ _) as [[|x l]|e] eqn:Hs; try done.
  - apply sorted_perm, Permutation_nil_l in Hs. intros _.
    assert (v ∈ candidates order body) as Hc by (by apply extracted_candidates).
    rewrite <- Hs in Hc. by apply elem_of_nil in Hc.
  - intros _. apply sorted_raise in Hs as (a & b & (l & r & ->)%list_lt_raise). eauto.
Qed.

(** The order in which the candidates reach [sorted] decides neither whether
    it returns nor the key of the version that it puts first. *)
Lemma selection_independent_of_order (l1 l2 : list str) :
  l1 ≡ₚ l2 ->
  is_ok (sorted list_lt (ver_key unicode_decimal) true l1) =
    is_ok (sorted list_lt (ver_key unicode_decimal) true l2) /\
  forall v1 r1 v2 r2,
    sorted list_lt (ver_key unicode_decimal) true l1 = Ok (v1 :: r1) ->
    sorted list_lt (ver_key unicode_decimal) true l2 = Ok (v2 :: r2) ->
    ver_key unicode_decimal v1 = ver_key unicode_decimal v2.
Proof.
  intros Hp.
  pose proof (sorted_ok_iff list_lt list_lt_irrefl list_lt_asym list_lt_le_trans
                list_lt_connex list_lt_ok_sym list_lt_between
                (ver_key unicode_decimal) true) as Hiff.
  split.
  - apply eq_true_iff_eq. rewrite !Hiff.
    split; intros H v w Hv Hw; apply H; first [by rewrite Hp|by rewrite <- Hp].
  - intros v1 r1 v2 r2 H1 H2.
    assert (forall l v r, sorted list_lt (ver_key unicode_decimal) true l = Ok (v :: r) ->
              forall w, w ∈ l ->
                list_lt (ver_key unicode_decimal v) (ver_key unicode_decimal w) = Ok false)
      as Hmax.
    { intros l v r Hs.
      destruct (sorted_reverse_head list_lt list_lt_irrefl list_lt_asym list_lt_le_trans
                  (ver_key unicode_decimal) l) as (v' & r' & Hs' & _ & Hm).
      - intros ->. apply sorted_perm in Hs. symmetry in Hs.
        by apply Permutation_nil_cons in Hs.
      - apply Hiff. by rewrite Hs.
      - rewrite Hs in Hs'. by injection Hs' as -> _. }
    assert (v1 ∈ l2) as Hv1.
    { rewrite <- Hp, <- (sorted_perm _ _ _ _ _ H1). left. }
    assert (v2 ∈ l1) as Hv2.
    { rewrite Hp, <- (sorted_perm _ _ _ _ _ H2). left. }
    pose proof (Hmax _ _ _ H1 _ Hv2) as H12.
    pose proof (Hmax _ _ _ H2 _ Hv1) as H21.
    destruct (list_lt_connex _ _ H12) as [|H]; [done|]. congruence.
Qed.
(** What a returned version is: an extracted version than which none has a
    greater key. *)
Lemma run_Ok_maximum (body : list byte) (v : str) :
  (run order unicode_decimal (Ok body)).2 = Ok [v] ->
  v ∈ extracted body /\
  forall w, w ∈ extracted body ->
    list_lt (ver_key unicode_decimal v) (ver_key unicode_decimal w) = Ok false.
Proof.
  intros Hr.
  assert (is_ok (run order unicode_decimal (Ok body)).2 = true) as Hok by (by rewrite Hr).
  apply run_ok_iff in Hok as [Hne Hc].
  destruct (run_returns_maximum body Hne Hc) as (v' & Hr' & Hv & Hm).
  rewrite Hr in Hr'. by injection Hr' as ->.
Qed.
End Outcome.

Lemma keys_comparable_check (unicode_decimal : N -> option N) (versions : list str) :
  forallb (fun v => forallb (fun w =>
    is_ok (list_lt (ver_key unicode_decimal v) (ver_key unicode_decimal w))) versions)
    versions = true ->
  keys_comparable unicode_decimal versions.
Proof.
  intros H v w Hv Hw. rewrite forallb_forall in H.
  apply list_elem_of_In, H in Hv. rewrite forallb_forall in Hv.
  by apply Hv, list_elem_of_In.
Qed.

(** * The statements of the specification *)

(** ** Keys that cannot be compared *)

(** C1: on the listing of the release v0.4.0 and its candidate v0.4.0rc1,
    where each name holds a version segment, [run] does not return the
    greatest version: the keys are [0, 4, 0] and [0, 4, '0rc1'], their third
    tokens are an integer and a text, and the sort raises [TypeError]. *)
Theorem release_and_candidate_raise (order : set_order) (unicode_decimal : N -> option N) :
  extracted (listing release_and_candidate) = [u "v0.4.0"; u "v0.4.0rc1"] /\
  (exists n pre post,
     n ∈ names_of (listing release_and_candidate) /\
     version_segment n pre (u "v0.4.0") post) /\
  ver_key unicode_decimal (u "v0.4.0") = [TInt 0; TInt 4; TInt 0] /\
  ver_key unicode_decimal (u "v0.4.0rc1") = [TInt 0; TInt 4; TStr (u "0rc1")] /\
  exists l r,
    (run order unicode_decimal (Ok (listing release_and_candidate))).2 = Raise (TypeError l r).
Proof.
  assert (extracted (listing release_and_candidate) = [u "v0.4.0"; u "v0.4.0rc1"]) as Hx
    by (by vm_compute).
  split; [done|]. split; [|split; [by vm_compute|split; [by vm_compute|]]].
  - exists (u "genlayer-node/bin/amd64/v0.4.0/node"), (u "genlayer-node/bin/amd64"), (u "node").
    split.
    + replace (names_of (listing release_and_candidate))
        with (u <$> release_and_candidate) by (by vm_compute). left.
    + split; [by vm_compute|]. exists (u "0.4.0"). split; [done|]. split; [done|].
      apply not_slash_Forall. vm_compute. by repeat constructor.
  - apply (run_raises_TypeError order unicode_decimal _ (u "v0.4.0") (u "v0.4.0rc1")).
    + rewrite Hx. left.
    + rewrite Hx. right. left.
    + by vm_compute.
Qed.

(** C2: the comparison of two keys is not defined for every pair: the keys of
    v1.0.0-rc1 and v1.0.0-2 differ first in a text and an integer, each
    comparison of the two raises [TypeError], and so does [run] on a listing
    that has both versions. *)
Theorem mixed_tokens_raise_TypeError (order : set_order) (unicode_decimal : N -> option N) :
  list_lt (ver_key unicode_decimal (u "v1.0.0-rc1")) (ver_key unicode_decimal (u "v1.0.0-2"))
    = Raise (TypeError (u "str") (u "int")) /\
  list_lt (ver_key unicode_decimal (u "v1.0.0-2")) (ver_key unicode_decimal (u "v1.0.0-rc1"))
    = Raise (TypeError (u "int") (u "str")) /\
  extracted (listing candidate_and_build) = [u "v1.0.0-rc1"; u "v1.0.0-2"] /\
  exists l r,
    (run order unicode_decimal (Ok (listing candidate_and_build))).2 = Raise (TypeError l r).
Proof.
  assert (extracted (listing candidate_and_build) = [u "v1.0.0-rc1"; u "v1.0.0-2"]) as Hx
    by (by vm_compute).
  split; [by vm_compute|]. split; [by vm_compute|]. split; [done|].
  apply (run_raises_TypeError order unicode_decimal _ (u "v1.0.0-rc1") (u "v1.0.0-2")).
  - rewrite Hx. left.
  - rewrite Hx. right. left.
  - by vm_compute.
Qed.

Example describe_TypeError :
  describe (TypeError (u "str") (u "int")) =
  u "'<' not supported between instances of 'str' and 'int'".
Proof. reflexivity. Qed.

(** ** No version found *)

(** C3: [run] raises the error that no version was found exactly when the
    fetch returned a body, the body was decoded, and the loop over the names
    extracted no version at all. *)
Theorem no_versions_iff (order : set_order) (unicode_decimal : N -> option N) (net : response) :
  (run order unicode_decimal net).2 = Raise (AnsibleError NO_VERSIONS) <->
  exists body data,
    net = Ok body /\ decode ignore body = Ok data /\ collect (findall data) = [].
Proof.
  destruct net as [body|e].
  - rewrite run_body. unfold extracted, names_of.
    destruct (decode_ignore_ok body) as [data Hd]. rewrite Hd.
    destruct (collect (findall data)) as [|v0 vs] eqn:Hv; simpl.
    + split; [|done]. intros _. exists body, data. done.
    + split.
      * destruct (sorted _ _ _ _) as [[|v l]|e] eqn:Hs; try done.
        apply sorted_raise in Hs as (a & b & (l & r & ->)%list_lt_raise). done.
      * intros (body' & data' & [= <-] & Hd' & Hnil). congruence.
  - rewrite run_failed. cbn [fst snd]. split.
    + intros H. exfalso. apply (fetch_failed_not_no_versions (describe e)). congruence.
    + by intros (body & data & [=] & _).
Qed.

Lemma no_versions_iff_witness :
  extracted (listing ["genlayer-node/bin/amd64/README"]%string) = [] /\
  (run canonical ascii_only (Ok (listing ["genlayer-node/bin/amd64/README"]%string))).2 =
  Raise (AnsibleError NO_VERSIONS).
Proof.
  split; [vm_compute; reflexivity|].
  apply no_versions_iff.
  eexists _, _. split; [reflexivity|]. split; vm_compute; reflexivity.
Defined.

(** ** Failure of the fetch *)

(** C4: when the HTTP GET fails with an exception [e], whatever it is, [run]
    raises the fetch error, whose message is the fixed prefix followed by the
    description of [e]; the call of [urlopen] is the only step performed, so
    nothing is decoded, extracted or sorted. *)
Theorem fetch_failure_reported (order : set_order) (unicode_decimal : N -> option N) (e : exn) :
  (run order unicode_decimal (Raise e)).2 = Raise (AnsibleError (FETCH_FAILED ++ describe e)) /\
  (run order unicode_decimal (Raise e)).1 = [Call_urlopen].
Proof. by rewrite run_failed. Qed.

Example fetch_timeout :
  (run canonical ascii_only (Raise (TransportError (u "timed out")))).2 =
  Raise (AnsibleError (u "Failed to fetch versions: timed out")).
Proof. reflexivity. Qed.

(** ** Numeric tokens *)

(** C5: for a listing whose names are the three releases 0.3.9, 0.3.10 and
    0.3.2, [run] returns v0.3.10, in whatever order the set is iterated: the
    tokens are integers, 9 and 2 are less than 10 and 10 is less than neither,
    although the text 10 is less than the text 9. *)
Theorem numeric_tokens_compare_as_integers
    (order : set_order) (unicode_decimal : N -> option N) (body : list byte) :
  names_of body = u <$> three_releases ->
  (run order unicode_decimal (Ok body)).2 = Ok [u "v0.3.10"] /\
  ver_key unicode_decimal (u "v0.3.9") = [TInt 0; TInt 3; TInt 9] /\
  ver_key unicode_decimal (u "v0.3.10") = [TInt 0; TInt 3; TInt 10] /\
  ver_key unicode_decimal (u "v0.3.2") = [TInt 0; TInt 3; TInt 2] /\
  list_lt (ver_key unicode_decimal (u "v0.3.9")) (ver_key unicode_decimal (u "v0.3.10"))
    = Ok true /\
  list_lt (ver_key unicode_decimal (u "v0.3.10")) (ver_key unicode_decimal (u "v0.3.9"))
    = Ok false /\
  list_lt (ver_key unicode_decimal (u "v0.3.2")) (ver_key unicode_decimal (u "v0.3.10"))
    = Ok true /\
  list_lt (ver_key unicode_decimal (u "v0.3.10")) (ver_key unicode_decimal (u "v0.3.2"))
    = Ok false /\
  str_ltb (u "10") (u "9") = true.
Proof.
  intros Hn.
  assert (extracted body = [u "v0.3.9"; u "v0.3.10"; u "v0.3.2"]) as Hx
    by (unfold extracted; rewrite Hn; by vm_compute).
  assert (list_lt (ver_key unicode_decimal (u "v0.3.9"))
            (ver_key unicode_decimal (u "v0.3.10")) = Ok true) as H9 by (by vm_compute).
  assert (list_lt (ver_key unicode_decimal (u "v0.3.2"))
            (ver_key unicode_decimal (u "v0.3.10")) = Ok true) as H2 by (by vm_compute).
  split; [|by vm_compute].
  destruct (run_returns_maximum order unicode_decimal body) as (v & -> & Hv & Hmax).
  - by rewrite Hx.
  - rewrite Hx. apply keys_comparable_check. by vm_compute.
  - rewrite Hx in Hv, Hmax.
    apply elem_of_cons in Hv as [->|Hv]; [|apply elem_of_cons in Hv as [->|Hv]].
    + rewrite (Hmax (u "v0.3.10")) in H9; [done|]. right. left.
    + done.
    + apply list_elem_of_singleton in Hv as ->.
      rewrite (Hmax (u "v0.3.10")) in H2; [done|]. right. left.
Qed.

Lemma numeric_tokens_compare_as_integers_witness :
  names_of (listing three_releases) = u <$> three_releases /\
  (run first_seen ascii_only (Ok (listing three_releases))).2 = Ok [u "v0.3.10"].
Proof.
  assert (names_of (listing three_releases) = u <$> three_releases) as H
    by (vm_compute; reflexivity).
  split; [exact H|].
  exact (proj1 (numeric_tokens_compare_as_integers first_seen ascii_only _ H)).
Defined.

(** ** Duplicates *)

(** The versions 1.0 and 1-0 have the same key.  Where the set is iterated
    in the order of the first insertions, a second name with the version 1.0
    in front of the listing changes the order of the candidates, and with it
    the version that [run] returns. *)
Lemma duplicates_change_the_version :
  extracted (listing tie_twice) = [u "v1.0"; u "v1-0"; u "v1.0"] /\
  extracted (listing tie_once) = [u "v1-0"; u "v1.0"] /\
  (run first_seen ascii_only (Ok (listing tie_twice))).2 = Ok [u "v1.0"] /\
  (run first_seen ascii_only (Ok (listing tie_once))).2 = Ok [u "v1-0"] /\
  (run first_seen ascii_only (Ok (listing tie_twice))).2 <>
  (run first_seen ascii_only (Ok (listing tie_once))).2.
Proof. repeat split; by vm_compute. Qed.

(** C6: when two listings yield the same versions, however many names each
    version comes from and in whatever orders the two sets are iterated, the
    candidates of each listing hold every extracted version once, [run] does
    the same steps on both and returns on one exactly when it returns on the
    other, and the two versions returned have the same key; they are the same
    version when no two extracted versions share a key. *)
Theorem duplicates_keep_the_key
    (order1 orderN : set_order) (unicode_decimal : N -> option N)
    (body1 bodyN : list byte) :
  (forall v, v ∈ extracted bodyN <-> v ∈ extracted body1) ->
  NoDup (candidates orderN bodyN) /\
  (forall v, v ∈ candidates orderN bodyN <-> v ∈ extracted bodyN) /\
  candidates orderN bodyN ≡ₚ candidates order1 body1 /\
  (run orderN unicode_decimal (Ok bodyN)).1 = (run order1 unicode_decimal (Ok body1)).1 /\
  is_ok (run orderN unicode_decimal (Ok bodyN)).2 =
    is_ok (run order1 unicode_decimal (Ok body1)).2 /\
  forall vN v1,
    (run orderN unicode_decimal (Ok bodyN)).2 = Ok [vN] ->
    (run order1 unicode_decimal (Ok body1)).2 = Ok [v1] ->
    ver_key unicode_decimal vN = ver_key unicode_decimal v1 /\
    ((forall x y, x ∈ extracted body1 -> y ∈ extracted body1 ->
        ver_key unicode_decimal x = ver_key unicode_decimal y -> x = y) ->
     vN = v1).
Proof.
  intros Hsame. split; [apply NoDup_candidates|]. split; [apply elem_of_candidates|].
  split; [|split; [|split]].
  - apply NoDup_Permutation; [apply NoDup_candidates..|].
    intros v. by rewrite !elem_of_candidates.
  - rewrite !run_body.
    destruct (extracted bodyN) as [|v vs] eqn:HN, (extracted body1) as [|w ws] eqn:H1;
      try done.
    + assert (w ∈ @nil str) as Hw by (apply Hsame; left). by apply elem_of_nil in Hw.
    + assert (v ∈ @nil str) as Hv by (apply Hsame; left). by apply elem_of_nil in Hv.
  - apply eq_true_iff_eq. rewrite !run_ok_iff. unfold keys_comparable.
    split; intros [Hne Hc]; (split; [|intros v w Hv Hw; apply Hc; by apply Hsame]).
    + intros Hnil. destruct (extracted bodyN) as [|v vs] eqn:HN; [done|].
      assert (v ∈ extracted body1) as Hv by (apply Hsame; left).
      rewrite Hnil in Hv. by apply elem_of_nil in Hv.
    + intros Hnil. destruct (extracted body1) as [|v vs] eqn:H1; [done|].
      assert (v ∈ extracted bodyN) as Hv by (apply Hsame; left).
      rewrite Hnil in Hv. by apply elem_of_nil in Hv.
  - intros vN v1 [HvN HmN]%run_Ok_maximum [Hv1 Hm1]%run_Ok_maximum.
    assert (ver_key unicode_decimal vN = ver_key unicode_decimal v1) as Hk.
    { pose proof (HmN v1 (proj2 (Hsame v1) Hv1)) as HN1.
      pose proof (Hm1 vN (proj1 (Hsame vN) HvN)) as H1N.
      destruct (list_lt_connex _ _ HN1) as [|H]; [done|congruence]. }
    split; [done|]. intros Hinj. apply Hinj; [by apply Hsame|done|done].
Qed.

Lemma duplicates_keep_the_key_witness :
  (forall v, v ∈ extracted (listing tie_twice) <-> v ∈ extracted (listing tie_once)) /\
  (run first_seen ascii_only (Ok (listing tie_twice))).2 = Ok [u "v1.0"] /\
  (run first_seen ascii_only (Ok (listing tie_once))).2 = Ok [u "v1-0"] /\
  ver_key ascii_only (u "v1.0") = ver_key ascii_only (u "v1-0").
Proof.
  assert (forall v, v ∈ extracted (listing tie_twice) <-> v ∈ extracted (listing tie_once))
    as Hsame.
  { intros v.
    replace (extracted (listing tie_twice)) with [u "v1.0"; u "v1-0"; u "v1.0"]
      by (by vm_compute).
    replace (extracted (listing tie_once)) with [u "v1-0"; u "v1.0"] by (by vm_compute).
    rewrite !elem_of_cons, !elem_of_nil. tauto. }
  assert ((run first_seen ascii_only (Ok (listing tie_twice))).2 = Ok [u "v1.0"]) as HN
    by (by vm_compute).
  assert ((run first_seen ascii_only (Ok (listing tie_once))).2 = Ok [u "v1-0"]) as H1
    by (by vm_compute).
  split; [exact Hsame|]. split; [exact HN|]. split; [exact H1|].
  destruct (duplicates_keep_the_key first_seen first_seen ascii_only _ _ Hsame)
    as (_ & _ & _ & _ & _ & Hkey).
  exact (proj1 (Hkey _ _ HN H1)).
Defined.

(** Where the keys differ, as in the listing of the three releases, the
    names that repeat a version change nothing. *)
Example duplicates_of_three_releases :
  extracted (listing release_twice_more) =
    [u "v0.3.10"; u "v0.3.9"; u "v0.3.10"; u "v0.3.10"; u "v0.3.2"] /\
  (run first_seen ascii_only (Ok (listing release_twice_more))).2 = Ok [u "v0.3.10"] /\
  (run canonical ascii_only (Ok (listing release_twice_more))).2 = Ok [u "v0.3.10"] /\
  (run first_seen ascii_only (Ok (listing three_releases))).2 = Ok [u "v0.3.10"].
Proof. repeat split; by vm_compute. Qed.

(** ** A key that extends another *)

(** C7: a key that continues another key by one or more tokens is the greater
    of the two, so in the descending sort the version with the longer key
    comes first; in particular v1.0.0-rc1 comes before v1.0.0, and [run]
    returns it from a listing that has these two versions. *)
Theorem longer_key_is_greater (order : set_order) (unicode_decimal : N -> option N) :
  (forall k t ext,
     list_lt k (k ++ t :: ext) = Ok true /\ list_lt (k ++ t :: ext) k = Ok false) /\
  (forall v w t ext,
     ver_key unicode_decimal w = ver_key unicode_decimal v ++ t :: ext ->
     sorted list_lt (ver_key unicode_decimal) true (elements ({[v; w]} : gset str))
       = Ok [w; v]) /\
  ver_key unicode_decimal (u "v1.0.0-rc1") =
    ver_key unicode_decimal (u "v1.0.0") ++ [TStr (u "rc1")] /\
  (forall body,
     (forall x, x ∈ extracted body <-> x = u "v1.0.0" \/ x = u "v1.0.0-rc1") ->
     (run order unicode_decimal (Ok body)).2 = Ok [u "v1.0.0-rc1"]).
Proof.
  split; [apply list_lt_extension|]. split; [|split; [by vm_compute|]].
  - intros v w t ext Hk.
    destruct (list_lt_extension (ver_key unicode_decimal v) t ext) as [Hlt Hgt].
    rewrite <- Hk in Hlt, Hgt.
    assert (v <> w) as Hne.
    { intros ->. by rewrite list_lt_irrefl in Hlt. }
    destruct (elements_pair v w Hne) as [-> | ->]; unfold sorted; simpl.
    + by rewrite Hlt.
    + by rewrite Hgt.
  - intros body Hx.
    assert (list_lt (ver_key unicode_decimal (u "v1.0.0"))
              (ver_key unicode_decimal (u "v1.0.0-rc1")) = Ok true) as Hlt
      by (by vm_compute).
    destruct (run_returns_maximum order unicode_decimal body) as (v & -> & Hv & Hmax).
    + intros Hnil. assert (u "v1.0.0" ∈ extracted body) as Hin by (apply Hx; by left).
      rewrite Hnil in Hin. by apply elem_of_nil in Hin.
    + intros v w [-> | ->]%Hx [-> | ->]%Hx;
        rewrite ?list_lt_irrefl, ?Hlt, ?(list_lt_asym _ _ Hlt); done.
    + apply Hx in Hv as [-> | ->]; [|done].
      rewrite (Hmax (u "v1.0.0-rc1")) in Hlt; [done|]. apply Hx. by right.
Qed.

Lemma longer_key_is_greater_witness :
  ver_key ascii_only (u "v1.0.0-rc1") = ver_key ascii_only (u "v1.0.0") ++ [TStr (u "rc1")] /\
  sorted list_lt (ver_key ascii_only) true
    (elements ({[u "v1.0.0"; u "v1.0.0-rc1"]} : gset str))
  = Ok [u "v1.0.0-rc1"; u "v1.0.0"].
Proof.
  assert (ver_key ascii_only (u "v1.0.0-rc1") =
          ver_key ascii_only (u "v1.0.0") ++ [TStr (u "rc1")]) as H
    by (vm_compute; reflexivity).
  split; [exact H|].
  exact (proj1 (proj2 (longer_key_is_greater canonical ascii_only)) _ _ _ _ H).
Defined.

Example run_prefers_release_candidate :
  (run canonical ascii_only (Ok (listing ["a/v1.0.0/node"; "a/v1.0.0-rc1/node"]%string))).2 =
  Ok [u "v1.0.0-rc1"].
Proof. vm_compute. reflexivity. Qed.

(** ** Extraction takes the first version segment *)

(** C8: for every name, [search] returns the first path segment that stands
    between two slashes and is the letter v followed by one or more characters
    other than a slash; it returns nothing exactly when the name has no such
    segment, and then the name adds no version to the list and raises
    nothing. *)
Theorem search_takes_first_version_segment (n : str) :
  (forall v, search n = Some v <->
     exists pre post,
       version_segment n pre v post /\
       forall pre' v' post', version_segment n pre' v' post' ->
         (length pre <= length pre')%nat) /\
  (search n = None <-> forall pre v post, ~ version_segment n pre v post) /\
  ((forall pre v post, ~ version_segment n pre v post) ->
     forall names, collect (n :: names) = collect names).
Proof.
  split; [|split].
  - intros v. split; [apply search_Some|].
    intros (pre & post & Hs & Hmin).
    destruct (search n) as [v'|] eqn:Hn.
    + apply search_Some in Hn as (pre' & post' & Hs' & Hmin').
      f_equal. apply (version_segment_unique n pre' v' post' pre v post); [done..|].
      apply Hmin in Hs'. apply Hmin' in Hs. lia.
    + by destruct (proj1 (search_None n) Hn _ _ _ Hs).
  - apply search_None.
  - intros Hno%search_None names. simpl. by rewrite Hno.
Qed.

Example search_first_of_two :
  search (u "genlayer-node/v/v0.3.10/extra/v9/node") = Some (u "v0.3.10").
Proof. reflexivity. Qed.

Example search_unclosed_segment : search (u "genlayer-node/v0.3.10") = None.
Proof. reflexivity. Qed.

(** ** Decoding never fails *)

(** C9: for every response body, decoding with the [ignore] handler returns a
    text; the call goes on to the extraction of the names, and never raises
    the error of the [try] block that encloses the decoding. *)
Theorem decode_never_fails (order : set_order) (unicode_decimal : N -> option N) (body : list byte) :
  (exists data, decode ignore body = Ok data) /\
  (exists rest, (run order unicode_decimal (Ok body)).1 =
     Call_urlopen :: Call_decode :: Call_findall :: rest) /\
  (forall m, (run order unicode_decimal (Ok body)).2 <> Raise (AnsibleError (FETCH_FAILED ++ m))).
Proof.
  split; [apply decode_ignore_ok|]. rewrite run_body.
  destruct (extracted body) as [|v0 vs]; cbn [fst snd]; (split; [eexists; reflexivity|]); intros m.
  - intros H. apply (fetch_failed_not_no_versions m). congruence.
  - destruct (sorted _ _ _ _) as [[|v l]|e] eqn:Hs; try done.
    apply sorted_raise in Hs as (a & b & (l & r & ->)%list_lt_raise). done.
Qed.

(** The [strict] handler, which the plugin does not use, does fail. *)
Example decode_strict_fails :
  decode strict [x76; xff]%byte =
  Raise (UnicodeDecodeError 1 2 255 (u "invalid start byte")).
Proof. reflexivity. Qed.

Example decode_ignore_drops : decode ignore [x76; xff; x31; xe2; x82]%byte = Ok (u "v1").
Proof. reflexivity. Qed.

(** ** What a successful call returns *)

(** C10: when [run] returns, it returns a list of one element; the element is
    one of the versions extracted from the names of the listing, so it starts
    with the letter v and contains no slash. *)
Theorem result_is_extracted_version
    (order : set_order) (unicode_decimal : N -> option N) (net : response) (r : list str) :
  (run order unicode_decimal net).2 = Ok r ->
  exists body v,
    net = Ok body /\ r = [v] /\ v ∈ extracted body /\
    head v = Some (chr "v") /\ SLASH ∉ v.
Proof.
  destruct net as [body|e]; [|by rewrite run_failed].
  rewrite run_body. destruct (extracted body) as [|v0 vs] eqn:Hx; [done|]. simpl.
  destruct (sorted _ _ _ _) as [[|v l]|e] eqn:Hs; try done. intros [= <-].
  assert (v ∈ extracted body) as Hv.
  { apply (candidates_extracted order). rewrite <- (sorted_perm _ _ _ _ _ Hs). left. }
  exists body, v. split; [done|]. split; [done|]. rewrite Hx. split; [by rewrite <- Hx|].
  unfold extracted in Hv. apply elem_of_collect in Hv as (n & _ & Hn).
  by apply search_Some_shape in Hn.
Qed.

Lemma result_is_extracted_version_witness :
  (run canonical ascii_only (Ok (listing three_releases))).2 = Ok [u "v0.3.10"] /\
  exists body v,
    Ok (listing three_releases) = Ok body /\ [u "v0.3.10"] = [v] /\
    v ∈ extracted body /\ head v = Some (chr "v") /\ SLASH ∉ v.
Proof.
  assert ((run canonical ascii_only (Ok (listing three_releases))).2 = Ok [u "v0.3.10"]) as H
    by (vm_compute; reflexivity).
  split; [exact H|]. exact (result_is_extracted_version canonical ascii_only _ _ H).
Defined.

(** * Further properties of the code *)

(** ** The outcomes of a call *)

Lemma candidates_nonempty (order : set_order) (body : list byte) : extracted body <> [] -> candidates order body <> [].
Proof.
  intros Hne Hnil. destruct (extracted body) as [|v vs] eqn:Hx; [done|].
  assert (v ∈ candidates order body) as Hv by (apply extracted_candidates; rewrite Hx; left).
  rewrite Hnil in Hv. by apply elem_of_nil in Hv.
Qed.

(** X1: a call ends in one of four ways, each with its steps: the fetch error
    after [urlopen] alone; the error that no version was found, before any
    sort; a list of one extracted version; or [TypeError] out of the sort.
    In particular [versions[0]] never raises [IndexError]. *)
Theorem run_outcomes (order : set_order) (unicode_decimal : N -> option N) (net : response) :
  (exists e, net = Raise e /\
     run order unicode_decimal net =
       ([Call_urlopen], Raise (AnsibleError (FETCH_FAILED ++ describe e)))) \/
  (exists body, net = Ok body /\ extracted body = [] /\
     run order unicode_decimal net = (STEPS_TO_SEARCH, Raise (AnsibleError NO_VERSIONS))) \/
  (exists body v, net = Ok body /\ v ∈ extracted body /\
     run order unicode_decimal net = (STEPS_TO_SEARCH ++ [Call_sorted], Ok [v])) \/
  (exists body l r, net = Ok body /\ extracted body <> [] /\
     run order unicode_decimal net = (STEPS_TO_SEARCH ++ [Call_sorted], Raise (TypeError l r))).
Proof.
  destruct net as [body|e]; [right|left; by exists e].
  rewrite run_body. destruct (extracted body) as [|v0 vs] eqn:Hx.
  { left. by exists body. }
  right. destruct (sorted _ _ _ _) as [[|v l]|e] eqn:Hs.
  - apply sorted_perm, Permutation_nil_l in Hs.
    destruct (candidates_nonempty order body); [by rewrite Hx|done].
  - left. exists body, v. split; [done|]. split; [|done].
    apply (candidates_extracted order). rewrite <- (sorted_perm _ _ _ _ _ Hs). left.
  - right. apply sorted_raise in Hs as (a & b & (l & r & ->)%list_lt_raise).
    exists body, l, r. split; [done|]. split; [by rewrite Hx|done].
Qed.

(** X2: on a fetched body a call returns exactly when the names yield a
    version and the keys of the yielded versions can all be compared with
    each other. *)
Theorem run_returns_iff (order : set_order) (unicode_decimal : N -> option N) (body : list byte) :
  (exists v, (run order unicode_decimal (Ok body)).2 = Ok [v]) <->
  extracted body <> [] /\ keys_comparable unicode_decimal (extracted body).
Proof.
  split.
  - intros [v Hv]. apply (run_ok_iff order). by rewrite Hv.
  - intros [Hne Hc].
    destruct (run_returns_maximum order unicode_decimal body Hne Hc) as (v & Hr & _). eauto.
Qed.

(** X3: when the keys of the extracted versions can all be compared, the call
    returns an extracted version whose key is the greatest: no extracted
    version has a greater key, and every one with another key has a lesser
    key. *)
Theorem run_selects_greatest (order : set_order) (unicode_decimal : N -> option N) (body : list byte) :
  extracted body <> [] ->
  keys_comparable unicode_decimal (extracted body) ->
  exists v,
    (run order unicode_decimal (Ok body)).2 = Ok [v] /\ v ∈ extracted body /\
    forall w, w ∈ extracted body ->
      list_lt (ver_key unicode_decimal v) (ver_key unicode_decimal w) = Ok false /\
      (ver_key unicode_decimal w <> ver_key unicode_decimal v ->
       list_lt (ver_key unicode_decimal w) (ver_key unicode_decimal v) = Ok true).
Proof.
  intros Hne Hc.
  destruct (run_returns_maximum order unicode_decimal body Hne Hc) as (v & Hr & Hv & Hmax).
  exists v. split; [done|]. split; [done|]. intros w Hw. split; [by apply Hmax|].
  intros Hkey. destruct (list_lt_connex _ _ (Hmax w Hw)) as [Heq|Hlt]; [|done].
  by rewrite Heq in Hkey.
Qed.

Lemma run_selects_greatest_witness :
  extracted (listing three_releases) <> [] /\
  keys_comparable ascii_only (extracted (listing three_releases)) /\
  exists v,
    (run canonical ascii_only (Ok (listing three_releases))).2 = Ok [v] /\
    v ∈ extracted (listing three_releases) /\
    forall w, w ∈ extracted (listing three_releases) ->
      list_lt (ver_key ascii_only v) (ver_key ascii_only w) = Ok false /\
      (ver_key ascii_only w <> ver_key ascii_only v ->
       list_lt (ver_key ascii_only w) (ver_key ascii_only v) = Ok true).
Proof.
  assert (extracted (listing three_releases) <> []) as H1 by (by vm_compute).
  assert (keys_comparable ascii_only (extracted (listing three_releases))) as H2
    by (apply keys_comparable_check; vm_compute; reflexivity).
  split; [exact H1|]. split; [exact H2|].
  exact (run_selects_greatest canonical ascii_only _ H1 H2).
Defined.

(** X4: more names never lower the result: when every version of one listing
    is also extracted from a second listing and the call returns on both, the
    version returned for the second has no lesser key than the one returned
    for the first. *)
Theorem more_names_never_lower
    (order1 order2 : set_order) (unicode_decimal : N -> option N)
    (body1 body2 : list byte) (v1 v2 : str) :
  (forall x, x ∈ extracted body1 -> x ∈ extracted body2) ->
  (run order1 unicode_decimal (Ok body1)).2 = Ok [v1] ->
  (run order2 unicode_decimal (Ok body2)).2 = Ok [v2] ->
  list_lt (ver_key unicode_decimal v2) (ver_key unicode_decimal v1) = Ok false.
Proof.
  intros Hsub [Hv1 _]%run_Ok_maximum [_ Hm2]%run_Ok_maximum.
  by apply Hm2, Hsub.
Qed.

Lemma more_names_never_lower_witness :
  (run canonical ascii_only (Ok (listing ["a/v0.3.9/node"; "a/v0.3.2/node"]%string))).2 = Ok [u "v0.3.9"] /\
  (run canonical ascii_only (Ok (listing three_releases))).2 = Ok [u "v0.3.10"] /\
  list_lt (ver_key ascii_only (u "v0.3.10")) (ver_key ascii_only (u "v0.3.9")) = Ok false.
Proof.
  assert ((run canonical ascii_only (Ok (listing ["a/v0.3.9/node"; "a/v0.3.2/node"]%string))).2
          = Ok [u "v0.3.9"]) as H1 by (by vm_compute).
  assert ((run canonical ascii_only (Ok (listing three_releases))).2 = Ok [u "v0.3.10"]) as H2
    by (by vm_compute).
  split; [exact H1|]. split; [exact H2|].
  assert (forall x, x ∈ extracted (listing ["a/v0.3.9/node"; "a/v0.3.2/node"]%string) ->
            x ∈ extracted (listing three_releases)) as Hsub.
  { intros x.
    replace (extracted (listing ["a/v0.3.9/node"; "a/v0.3.2/node"]%string))
      with [u "v0.3.9"; u "v0.3.2"] by (by vm_compute).
    replace (extracted (listing three_releases))
      with [u "v0.3.9"; u "v0.3.10"; u "v0.3.2"] by (by vm_compute).
    rewrite !elem_of_cons, !elem_of_nil. tauto. }
  exact (more_names_never_lower canonical canonical ascii_only _ _ _ _ Hsub H1 H2).
Defined.

(** ** The order of the candidates *)

(** X5: the order in which the set hands its members to [sorted] decides
    neither whether the sort returns nor the key of the version that comes
    first; when no two candidates share a key it does not decide the version
    either. *)
Theorem set_order_does_not_matter (unicode_decimal : N -> option N) (l1 l2 : list str) :
  l1 ≡ₚ l2 ->
  is_ok (sorted list_lt (ver_key unicode_decimal) true l1) =
    is_ok (sorted list_lt (ver_key unicode_decimal) true l2) /\
  forall v1 r1 v2 r2,
    sorted list_lt (ver_key unicode_decimal) true l1 = Ok (v1 :: r1) ->
    sorted list_lt (ver_key unicode_decimal) true l2 = Ok (v2 :: r2) ->
    ver_key unicode_decimal v1 = ver_key unicode_decimal v2 /\
    ((forall x y, x ∈ l1 -> y ∈ l1 ->
        ver_key unicode_decimal x = ver_key unicode_decimal y -> x = y) ->
     v1 = v2).
Proof.
  intros Hp. destruct (selection_independent_of_order unicode_decimal l1 l2 Hp) as [Hok Hkey].
  split; [done|]. intros v1 r1 v2 r2 H1 H2.
  pose proof (Hkey _ _ _ _ H1 H2) as Heq. split; [done|].
  intros Hinj. apply Hinj; [| |done].
  - rewrite <- (sorted_perm _ _ _ _ _ H1). left.
  - rewrite Hp, <- (sorted_perm _ _ _ _ _ H2). left.
Qed.

Lemma set_order_does_not_matter_witness :
  [u "v0.3.9"; u "v0.3.10"] ≡ₚ [u "v0.3.10"; u "v0.3.9"] /\
  sorted list_lt (ver_key ascii_only) true [u "v0.3.9"; u "v0.3.10"] =
    Ok [u "v0.3.10"; u "v0.3.9"] /\
  sorted list_lt (ver_key ascii_only) true [u "v0.3.10"; u "v0.3.9"] =
    Ok [u "v0.3.10"; u "v0.3.9"] /\
  ver_key ascii_only (u "v0.3.10") = ver_key ascii_only (u "v0.3.10").
Proof.
  assert ([u "v0.3.9"; u "v0.3.10"] ≡ₚ [u "v0.3.10"; u "v0.3.9"]) as Hp
    by apply Permutation_swap.
  assert (sorted list_lt (ver_key ascii_only) true [u "v0.3.9"; u "v0.3.10"] =
            Ok [u "v0.3.10"; u "v0.3.9"]) as H1 by (by vm_compute).
  assert (sorted list_lt (ver_key ascii_only) true [u "v0.3.10"; u "v0.3.9"] =
            Ok [u "v0.3.10"; u "v0.3.9"]) as H2 by (by vm_compute).
  split; [exact Hp|]. split; [exact H1|]. split; [exact H2|].
  exact (proj1 (proj2 (set_order_does_not_matter ascii_only _ _ Hp) _ _ _ _ H1 H2)).
Defined.

(** ** The comparison of keys *)

(** X6: where it is defined, the comparison of keys is a strict total order:
    no key is less than itself, the comparison is transitive, of two keys that
    can be compared it holds one way only, and two keys neither of which is
    less than the other are the same key.  It is defined one way exactly when
    it is the other way. *)
Theorem key_order_laws :
  (forall a, list_lt a a = Ok false) /\
  (forall a b, list_lt a b = Ok true -> list_lt b a = Ok false) /\
  (forall a b c, list_lt a b = Ok true -> list_lt b c = Ok true -> list_lt a c = Ok true) /\
  (forall a b, list_lt a b = Ok false -> list_lt b a = Ok false -> a = b) /\
  (forall a b, is_ok (list_lt a b) = is_ok (list_lt b a)).
Proof.
  split; [apply list_lt_irrefl|]. split; [apply list_lt_asym|].
  split; [apply list_lt_trans|]. split; [|apply list_lt_ok_sym].
  intros a b Hab Hba. destruct (list_lt_connex _ _ Hab) as [|H]; [done|congruence].
Qed.

Lemma type_name_differs (x y : token) :
  type_name x <> type_name y <-> is_ok (tok_lt x y) = false.
Proof.
  rewrite tok_lt_ok_same_type. by rewrite bool_decide_eq_false.
Qed.

Lemma list_lt_common_prefix (p a b : list token) :
  list_lt (p ++ a) (p ++ b) = list_lt a b.
Proof. induction p as [|c p IH]; simpl; [done|]. by rewrite tok_eqb_refl. Qed.

(** X7: the comparison of two keys raises exactly when, behind a common
    prefix, each key has a further token and the two tokens are an integer
    and a text. *)
Theorem comparison_raises_iff (a b : list token) :
  is_ok (list_lt a b) = false <->
  exists p x y a' b',
    a = p ++ x :: a' /\ b = p ++ y :: b' /\ type_name x <> type_name y.
Proof.
  split.
  - revert b. induction a as [|x a IH]; intros [|y b]; simpl; try done.
    destruct (tok_eqb x y) eqn:Exy.
    + apply tok_eqb_eq in Exy as ->.
      intros (p & x' & y' & a' & b' & -> & -> & Hty)%IH.
      by exists (y :: p), x', y', a', b'.
    + intros Hxy%type_name_differs. by exists [], x, y, a, b.
  - intros (p & x & y & a' & b' & -> & -> & Hty). rewrite list_lt_common_prefix. simpl.
    destruct (tok_eqb x y) eqn:Exy; [|by apply type_name_differs].
    by apply tok_eqb_eq in Exy as ->.
Qed.

Example comparison_raises_example :
  is_ok (list_lt (ver_key ascii_only (u "v1.0.0-rc1")) (ver_key ascii_only (u "v1.0.0-2")))
  = false.
Proof. reflexivity. Qed.

(** ** The sorted list *)

Lemma StronglySorted_reverse {A} (R : A -> A -> Prop) (l : list A) :
  StronglySorted R l -> StronglySorted (fun x y => R y x) (list.reverse l).
Proof.
  induction 1 as [|x l Hl IH Hx]; [constructor|].
  rewrite reverse_cons. apply StronglySorted_app_2; [|done|by repeat constructor].
  intros y z Hy ->%list_elem_of_singleton. rewrite elem_of_reverse in Hy.
  rewrite Forall_forall in Hx. by apply Hx.
Qed.

Section SortedList.
Context {A K : Type} (lt : K -> K -> result bool).

(** The last element of the sorted list stands in the unsorted list behind
    no element that is not less than it. *)
Lemma sort_last_rightmost (l s : list (K * A)) (m : K * A) :
  sort lt l = Ok s -> last s = Some m ->
  exists front back, l = front ++ m :: back /\ forall y, y ∈ back -> lt y.1 m.1 = Ok true.
Proof.
  revert s. induction l as [|x l IH]; simpl; intros s.
  - by intros [= <-].
  - intros H Hm. apply rbind_ok in H as (s' & Hs' & H).
    destruct (insort_last lt _ _ _ H) as [[Hl Hall]|[Hl _]]; rewrite Hl in Hm.
    + injection Hm as <-. exists [], l. split; [done|].
      intros y Hy. apply Hall. by rewrite (sort_perm _ _ _ Hs').
    + destruct (IH _ Hs' Hm) as (front & back & -> & Hback).
      by exists (x :: front), back.
Qed.

Hypothesis lt_irrefl : forall a, lt a a = Ok false.
Hypothesis lt_asym : forall a b, lt a b = Ok true -> lt b a = Ok false.
Hypothesis lt_le_trans : forall a b c,
  lt b a = Ok false -> lt c b = Ok false -> is_ok (lt c a) = true -> lt c a = Ok false.
Hypothesis lt_connex : forall a b, lt a b = Ok false -> a = b \/ lt b a = Ok true.
Hypothesis lt_ok_sym : forall a b, is_ok (lt a b) = is_ok (lt b a).
Hypothesis lt_between : forall a b c,
  is_ok (lt a c) = false -> is_ok (lt b a) = true -> is_ok (lt b c) = true ->
  lt b a = lt b c.

(** With [reverse] the list that [sorted] returns is descending: no element
    has a lesser key than one behind it. *)
Lemma sorted_reverse_descending (key : A -> K) (l r : list A) :
  sorted lt key true l = Ok r ->
  StronglySorted (fun x y => lt (key x) (key y) = Ok false) r.
Proof.
  unfold sorted. intros (s & Hs & ->)%rmap_ok.
  pose proof (sort_ok_comparable lt lt_irrefl lt_asym lt_le_trans lt_connex lt_ok_sym
                lt_between _ _ Hs) as Hc.
  pose proof (sort_ascending lt lt_asym lt_le_trans _ _ Hc Hs) as Hasc.
  apply StronglySorted_reverse in Hasc.
  assert (Forall (fun p => p.1 = key p.2) (list.reverse s)) as Hk.
  { rewrite Forall_forall. intros p Hp.
    rewrite elem_of_reverse, (sort_perm _ _ _ Hs), elem_of_reverse in Hp.
    by apply list_elem_of_fmap in Hp as (x & -> & _). }
  induction Hasc as [|p t Ht IH Hp]; [constructor|].
  apply Forall_cons in Hk as [Hkp Hkt]. simpl. constructor; [by apply IH|].
  rewrite Forall_forall in Hp, Hkt. rewrite Forall_forall.
  intros v (q & -> & Hq)%list_elem_of_fmap.
  rewrite <- Hkp, <- (Hkt q Hq). by apply Hp.
Qed.

(** With [reverse] the first element of the sorted list is, among the
    elements with the greatest key, the one that came first. *)
Lemma sorted_reverse_first (key : A -> K) (l : list A) (v : A) (r : list A) :
  sorted lt key true l = Ok (v :: r) ->
  exists front back,
    l = front ++ v :: back /\
    (forall w, w ∈ front -> lt (key w) (key v) = Ok true) /\
    (forall w, w ∈ back -> lt (key v) (key w) = Ok false).
Proof.
  intros Hsorted.
  assert (forall w, w ∈ l -> lt (key v) (key w) = Ok false) as Hmax.
  { apply sorted_reverse_descending in Hsorted as Hd.
    apply StronglySorted_inv in Hd as [_ Hd]. rewrite Forall_forall in Hd.
    intros w Hw. rewrite <- (sorted_perm _ _ _ _ _ Hsorted) in Hw.
    apply elem_of_cons in Hw as [->|Hw]; [apply lt_irrefl|by apply Hd]. }
  revert Hsorted. unfold sorted. intros (s & Hs & Hr)%rmap_ok.
  assert (last s = Some (key v, v)) as Hlast.
  { rewrite <- head_reverse.
    assert (Forall (fun p => p.1 = key p.2) (list.reverse s)) as Hk.
    { rewrite Forall_forall. intros p Hp.
      rewrite elem_of_reverse, (sort_perm _ _ _ Hs), elem_of_reverse in Hp.
      by apply list_elem_of_fmap in Hp as (x & -> & _). }
    destruct (list.reverse s) as [|[k v'] t]; [done|].
    apply Forall_cons in Hk as [Hk _]. simpl in *. injection Hr as -> _. by rewrite Hk. }
  destruct (sort_last_rightmost _ _ _ Hs Hlast) as (fr & bk & Hl & Hbk).
  apply (f_equal list.reverse) in Hl.
  rewrite reverse_involutive, reverse_app, reverse_cons, <- app_assoc in Hl. simpl in Hl.
  apply fmap_app_inv in Hl as (front & rest & Hfront & Hrest & ->).
  symmetry in Hrest. apply fmap_cons_inv in Hrest as (v' & back & [= _ <-] & _ & ->).
  exists front, back. split; [done|]. split.
  - intros w Hw. apply (Hbk (key w, w)).
    apply elem_of_reverse. rewrite Hfront. apply list_elem_of_fmap. eauto.
  - intros w Hw. apply Hmax. rewrite elem_of_app. right. by right.
Qed.
End SortedList.

(** X8: when [sorted] returns, it returns the candidates in descending order
    of their keys: the same versions, and none with a lesser key than one
    behind it. *)
Theorem sorted_versions_descend
    (unicode_decimal : N -> option N) (l r : list str) :
  sorted list_lt (ver_key unicode_decimal) true l = Ok r ->
  r ≡ₚ l /\
  StronglySorted
    (fun v w => list_lt (ver_key unicode_decimal v) (ver_key unicode_decimal w) = Ok false) r.
Proof.
  intros H. split; [by apply sorted_perm in H|].
  by apply (sorted_reverse_descending list_lt list_lt_irrefl list_lt_asym list_lt_le_trans
              list_lt_connex list_lt_ok_sym list_lt_between) in H.
Qed.

Lemma sorted_versions_descend_witness :
  sorted list_lt (ver_key ascii_only) true [u "v0.3.9"; u "v0.3.10"; u "v0.3.2"] =
    Ok [u "v0.3.10"; u "v0.3.9"; u "v0.3.2"] /\
  StronglySorted
    (fun v w => list_lt (ver_key ascii_only v) (ver_key ascii_only w) = Ok false)
    [u "v0.3.10"; u "v0.3.9"; u "v0.3.2"].
Proof.
  assert (sorted list_lt (ver_key ascii_only) true [u "v0.3.9"; u "v0.3.10"; u "v0.3.2"] =
            Ok [u "v0.3.10"; u "v0.3.9"; u "v0.3.2"]) as H by (by vm_compute).
  split; [exact H|]. exact (proj2 (sorted_versions_descend ascii_only _ _ H)).
Defined.

(** X9: of the candidates with the greatest key the one that the set hands
    over first is returned: every candidate before the first of the sorted
    list has a lesser key, and none behind it has a greater key. *)
Theorem first_of_equal_keys_wins
    (unicode_decimal : N -> option N) (l : list str) (v : str) (r : list str) :
  sorted list_lt (ver_key unicode_decimal) true l = Ok (v :: r) ->
  exists front back,
    l = front ++ v :: back /\
    (forall w, w ∈ front ->
       list_lt (ver_key unicode_decimal w) (ver_key unicode_decimal v) = Ok true) /\
    (forall w, w ∈ back ->
       list_lt (ver_key unicode_decimal v) (ver_key unicode_decimal w) = Ok false).
Proof.
  apply (sorted_reverse_first list_lt list_lt_irrefl list_lt_asym list_lt_le_trans
           list_lt_connex list_lt_ok_sym list_lt_between).
Qed.

Lemma first_of_equal_keys_wins_witness :
  sorted list_lt (ver_key ascii_only) true [u "v0.9"; u "v1.0"; u "v1-0"; u "v01.0"] =
    Ok [u "v1.0"; u "v1-0"; u "v01.0"; u "v0.9"] /\
  exists front back,
    [u "v0.9"; u "v1.0"; u "v1-0"; u "v01.0"] = front ++ u "v1.0" :: back /\
    (forall w, w ∈ front ->
       list_lt (ver_key ascii_only w) (ver_key ascii_only (u "v1.0")) = Ok true) /\
    (forall w, w ∈ back ->
       list_lt (ver_key ascii_only (u "v1.0")) (ver_key ascii_only w) = Ok false).
Proof.
  assert (sorted list_lt (ver_key ascii_only) true [u "v0.9"; u "v1.0"; u "v1-0"; u "v01.0"] =
            Ok [u "v1.0"; u "v1-0"; u "v01.0"; u "v0.9"]) as H by (by vm_compute).
  split; [exact H|]. exact (first_of_equal_keys_wins ascii_only _ _ _ H).
Defined.

(** ** The names *)

Lemma strip_prefix_same (p r : str) : strip_prefix p (p ++ r) = Some r.
Proof.
  induction p as [|a p IH]; simpl; [by destruct r|]. by rewrite N.eqb_refl.
Qed.

Lemma match_name_other_start (c : N) (rest : str) :
  c <> QUOTE -> match_name (c :: rest) = None.
Proof.
  intros Hc. unfold match_name, NAME_KEY. cbn [strip_prefix].
  by destruct (N.eqb_spec QUOTE c) as [<-|].
Qed.

Lemma match_name_field (ws name post : str) :
  Forall (fun c => is_space c = true) ws -> name <> [] -> QUOTE ∉ name ->
  match_name (NAME_KEY ++ ws ++ QUOTE :: name ++ QUOTE :: post) = Some (name, post).
Proof.
  intros Hws Hne Hq. unfold match_name. rewrite strip_prefix_same.
  rewrite (span_app is_space ws _ QUOTE) by done. cbn [snd]. rewrite N.eqb_refl.
  rewrite (span_app (fun c => negb (c =? QUOTE)) name post QUOTE).
  - by destruct name.
  - rewrite Forall_forall. intros c Hc. apply negb_true_iff, N.eqb_neq. by intros ->.
  - by rewrite N.eqb_refl.
Qed.

Lemma match_name_shape (s name after : str) :
  match_name s = Some (name, after) ->
  exists ws,
    s = NAME_KEY ++ ws ++ QUOTE :: name ++ QUOTE :: after /\
    Forall (fun c => is_space c = true) ws /\ name <> [] /\ QUOTE ∉ name.
Proof.
  unfold match_name.
  destruct (strip_prefix NAME_KEY s) as [r0|] eqn:Hp; [|done].
  apply strip_prefix_app in Hp as ->.
  destruct (span_spec is_space r0) as (Hr0 & Hws & _).
  destruct (span is_space r0) as [ws [|q r2]]; [done|]. cbn [fst snd] in *.
  destruct (N.eqb_spec q QUOTE) as [->|]; [|done].
  destruct (span_spec (fun c => negb (c =? QUOTE)) r2) as (Hr2 & Hname & Hq).
  destruct (span _ r2) as [[|c nm] [|q' r4]]; try done.
  cbn [fst snd] in *. intros [= <- <-].
  apply negb_false_iff, N.eqb_eq in Hq as ->.
  exists ws. split; [by rewrite Hr0, Hr2|]. split; [done|]. split; [done|].
  intros Hin. rewrite Forall_forall in Hname. apply Hname in Hin.
  by rewrite N.eqb_refl in Hin.
Qed.

(** X10: a name field is found behind any text without a quotation mark: the
    key, white space or none, and the quoted value give the value as the next
    name, and the search goes on behind the closing quotation mark. *)
Theorem findall_takes_field (pre ws name post : str) :
  QUOTE ∉ pre -> Forall (fun c => is_space c = true) ws ->
  name <> [] -> QUOTE ∉ name ->
  findall (pre ++ NAME_KEY ++ ws ++ QUOTE :: name ++ QUOTE :: post) = name :: findall post.
Proof.
  intros Hpre Hws Hne Hq. induction pre as [|c pre IH].
  - change ([] ++ NAME_KEY ++ ws ++ QUOTE :: name ++ QUOTE :: post)
      with (QUOTE :: (u "name" ++ [QUOTE; chr ":"]) ++ ws ++ QUOTE :: name ++ QUOTE :: post).
    rewrite findall_unfold.
    change (QUOTE :: (u "name" ++ [QUOTE; chr ":"]) ++ ws ++ QUOTE :: name ++ QUOTE :: post)
      with (NAME_KEY ++ ws ++ QUOTE :: name ++ QUOTE :: post).
    by rewrite match_name_field.
  - cbn [app]. rewrite findall_unfold, match_name_other_start.
    + apply IH. intros Hin. apply Hpre. by right.
    + intros ->. apply Hpre. left.
Qed.

Lemma findall_takes_field_witness :
  findall (u "{ " ++ NAME_KEY ++ u "  " ++ QUOTE :: u "a/v1.2/b" ++ QUOTE :: u " }") =
  u "a/v1.2/b" :: findall (u " }").
Proof.
  apply findall_takes_field.
  - apply not_elem_of_cons. split; [done|]. apply not_elem_of_cons. split; [done|].
    apply not_elem_of_nil.
  - by repeat constructor.
  - done.
  - vm_compute. intros H. repeat (apply elem_of_cons in H as [H|H]; [done|]).
    by apply elem_of_nil in H.
Defined.

Lemma findall_names_bounded (n : nat) :
  forall data name, (length data <= n)%nat -> name ∈ findall data ->
    exists front ws back,
      data = front ++ NAME_KEY ++ ws ++ QUOTE :: name ++ QUOTE :: back /\
      Forall (fun c => is_space c = true) ws /\ name <> [] /\ QUOTE ∉ name.
Proof.
  induction n as [|n IH]; intros [|c rest] name Hlen; simpl in Hlen;
    try (by intros ?%elem_of_nil); [lia|].
  rewrite findall_unfold.
  destruct (match_name (c :: rest)) as [[nm after]|] eqn:Hm.
  - apply match_name_shape in Hm as (ws & Hs & Hws & Hne & Hq).
    intros [->|Hin]%elem_of_cons.
    + by exists [], ws, after.
    + destruct (IH after name) as (front & ws' & back & -> & Hrest); [|done|].
      { apply (f_equal length) in Hs. simpl in Hs. rewrite !length_app in Hs.
        simpl in Hs. rewrite !length_app in Hs. simpl in Hs. lia. }
      exists (NAME_KEY ++ ws ++ QUOTE :: nm ++ QUOTE :: front), ws', back.
      split; [|done]. rewrite Hs.
      by repeat (rewrite <- app_assoc || rewrite <- app_comm_cons).
  - intros Hin. destruct (IH rest name) as (front & ws & back & -> & Hrest); [lia|done|].
    by exists (c :: front), ws, back.
Qed.

(** X11: every name that [findall] returns stands in the text between two
    quotation marks behind the key and optional white space; it is not empty
    and holds no quotation mark.  A text without a quotation mark has no
    name. *)
Theorem findall_names_are_quoted_values (data : str) :
  (forall name, name ∈ findall data ->
     exists front ws back,
       data = front ++ NAME_KEY ++ ws ++ QUOTE :: name ++ QUOTE :: back /\
       Forall (fun c => is_space c = true) ws /\ name <> [] /\ QUOTE ∉ name) /\
  (QUOTE ∉ data -> findall data = []).
Proof.
  split; [intros name; by apply (findall_names_bounded (length data))|].
  intros Hq. destruct (findall data) as [|name names] eqn:Hf; [done|].
  destruct (findall_names_bounded (length data) data name) as (front & ws & back & Hd & _);
    [done|rewrite Hf; left|].
  destruct Hq. rewrite Hd. rewrite elem_of_app. right. left.
Qed.

(** ** The pieces of a core *)

Lemma split_plain (p : str) :
  forallb (fun c => negb (is_sep c)) p = true -> split p = [p].
Proof.
  induction p as [|c p IH]; simpl; [done|].
  intros [Hc Hp]%andb_true_iff. apply negb_true_iff in Hc. by rewrite Hc, IH.
Qed.

Lemma split_piece (p rest : str) (s : N) :
  forallb (fun c => negb (is_sep c)) p = true -> is_sep s = true ->
  split (p ++ s :: rest) = p :: split rest.
Proof.
  intros Hp Hs. induction p as [|c p IH]; simpl; [by rewrite Hs|].
  simpl in Hp. apply andb_true_iff in Hp as [Hc Hp]. apply negb_true_iff in Hc.
  by rewrite Hc, IH.
Qed.

Lemma split_dotted (parts : list str) :
  parts <> [] ->
  Forall (fun p => forallb (fun c => negb (is_sep c)) p = true) parts ->
  split (dotted parts) = parts.
Proof.
  intros Hne Hall. induction Hall as [|p parts Hp Hparts IH]; [done|].
  destruct parts as [|q parts]; [by apply split_plain|].
  change (dotted (p :: q :: parts)) with (p ++ chr "." :: dotted (q :: parts)).
  rewrite split_piece by done. by rewrite IH.
Qed.

(** X12: the split of a core never returns an empty list: it returns one
    piece more than the core has separators, no piece holds a separator, the
    pieces in a row are the core without its separators, and pieces without
    separators that are joined by dots are split into themselves. *)
Theorem split_pieces (core : str) :
  length (split core) = S (length (List.filter is_sep core)) /\
  Forall (fun p => forallb (fun c => negb (is_sep c)) p = true) (split core) /\
  concat (split core) = List.filter (fun c => negb (is_sep c)) core /\
  (forall parts,
     parts <> [] ->
     Forall (fun p => forallb (fun c => negb (is_sep c)) p = true) parts ->
     split (dotted parts) = parts).
Proof.
  split; [|split; [|split; [|apply split_dotted]]].
  - induction core as [|c core IH]; simpl; [done|].
    destruct (is_sep c); simpl; [by rewrite IH|].
    destruct (split core) as [|p ps]; [done|]. by rewrite <- IH.
  - induction core as [|c core IH]; simpl; [by repeat constructor|].
    destruct (is_sep c) eqn:Hc; [by constructor|].
    destruct (split core) as [|p ps]; [repeat constructor; simpl; by rewrite Hc|].
    apply Forall_cons in IH as [Hp Hps]. constructor; [|done]. simpl. by rewrite Hc.
  - induction core as [|c core IH]; simpl; [done|].
    destruct (is_sep c); simpl; [done|].
    destruct (split core) as [|p ps]; simpl in *; by rewrite <- IH.
Qed.

Example split_of_empty_core : split [] = [[]].
Proof. reflexivity. Qed.

(** ** Versions made of numbers *)

Lemma is_digit_range (c : N) : is_digit c = true -> 48 <= c <= 57.
Proof. unfold is_digit. intros [?%N.leb_le ?%N.leb_le]%andb_true_iff. lia. Qed.

Lemma digit_not_sep (c : N) : is_digit c = true -> is_sep c = false.
Proof.
  intros [H1 H2]%is_digit_range. unfold is_sep.
  change (chr ".") with 46. change (chr "-") with 45.
  apply orb_false_iff. split; apply N.eqb_neq; lia.
Qed.

Lemma span_all {A} (f : A -> bool) (l : list A) :
  Forall (fun x => f x = true) l -> span f l = (l, []).
Proof. induction 1 as [|x l Hx _ IH]; simpl; [done|]. by rewrite Hx, IH. Qed.

Lemma filter_all {A} (f : A -> bool) (l : list A) :
  Forall (fun x => f x = true) l -> List.filter f l = l.
Proof. induction 1 as [|x l Hx _ IH]; simpl; [done|]. by rewrite Hx, IH. Qed.

Lemma groups_ok_digits (p : list N) :
  Forall (fun c => is_digit c = true) p -> groups_ok false p = true.
Proof.
  induction 1 as [|c p Hc _ IH]; cbn [groups_ok]; [done|].
  apply is_digit_range in Hc.
  destruct (N.eqb_spec c (chr "_")) as [Heq|]; [|done].
  exfalso. change (chr "_") with 95 in Heq. lia.
Qed.

Lemma plain_number_spec (p : str) :
  plain_number p = true ->
  exists c p', p = c :: p' /\ Forall (fun c => is_digit c = true) p /\
    (length p <= int_max_str_digits)%nat.
Proof.
  destruct p as [|c p']; [done|]. unfold plain_number.
  intros [Hd Hl]%andb_true_iff. exists c, p'. split; [done|]. split.
  - rewrite Forall_forall. rewrite forallb_forall in Hd.
    intros x Hx. by apply Hd, list_elem_of_In.
  - by apply Nat.leb_le.
Qed.

(** [int] converts a plain number to the value of its digits. *)
Lemma int_plain_number (unicode_decimal : N -> option N) (p : str) :
  plain_number p = true -> int unicode_decimal p = Some (value p).
Proof.
  intros (c & p' & -> & Hd & Hl)%plain_number_spec.
  assert (to_ascii unicode_decimal <$> c :: p' = c :: p') as Hascii.
  { clear Hl. induction Hd as [|x l Hx _ IH]; [done|]. rewrite fmap_cons, IH. f_equal.
    apply is_digit_range in Hx. unfold to_ascii.
    by destruct (N.ltb_spec x 127); [|lia]. }
  pose proof (Forall_inv Hd) as Hc. apply is_digit_range in Hc as Hr.
  unfold int. rewrite Hascii. cbn [span].
  replace (py_isspace c) with false
    by (unfold py_isspace; symmetry; apply orb_false_iff; split;
        [apply andb_false_iff; right; apply N.leb_gt; lia|apply N.eqb_neq; lia]).
  cbn [snd]. change (chr "+") with 43. change (chr "-") with 45.
  destruct (N.eqb_spec c 43); [lia|]. destruct (N.eqb_spec c 45); [lia|].
  rewrite (span_all _ (c :: p'))
    by (eapply Forall_impl; [exact Hd|]; intros x Hx; cbv beta; by rewrite Hx).
  rewrite (filter_all is_digit (c :: p')) by done.
  assert (groups_ok true (c :: p') = true) as ->.
  { cbn [groups_ok]. change (chr "_") with 95. destruct (N.eqb_spec c 95); [lia|].
    apply groups_ok_digits. by apply Forall_inv_tail in Hd. }
  apply Nat.leb_le in Hl. rewrite Hl. cbn [forallb andb].
  by destruct (value (c :: p')).
Qed.

Lemma list_lt_ints_ok (a b : list Z) : is_ok (list_lt (TInt <$> a) (TInt <$> b)) = true.
Proof.
  revert b. induction a as [|x a IH]; intros [|y b]; simpl; try done.
  by destruct (x =? y)%Z.
Qed.

Lemma ver_key_plain_numbers (unicode_decimal : N -> option N) (v : str) :
  forallb plain_number (split (drop 1 v)) = true ->
  ver_key unicode_decimal v = TInt <$> (value <$> split (drop 1 v)).
Proof.
  unfold ver_key. intros H. rewrite <- list_fmap_compose.
  apply list_fmap_ext. intros i p Hp. cbv beta. simpl.
  rewrite forallb_forall in H. rewrite int_plain_number; [done|].
  apply H, list_elem_of_In. by apply list_elem_of_lookup_2 in Hp.
Qed.

(** X13: the key of a version whose core is plain numbers joined by dots is
    the list of the values of these numbers, whatever the first character of
    the version is. *)
Theorem ver_key_of_numbers
    (unicode_decimal : N -> option N) (c : N) (parts : list str) :
  parts <> [] -> forallb plain_number parts = true ->
  ver_key unicode_decimal (c :: dotted parts) = TInt <$> (value <$> parts).
Proof.
  intros Hne Hall.
  assert (split (drop 1 (c :: dotted parts)) = parts) as Hs.
  { cbn [drop]. apply split_dotted; [done|].
    rewrite Forall_forall. intros p Hp. rewrite forallb_forall in Hall.
    apply list_elem_of_In, Hall, plain_number_spec in Hp as (_ & _ & _ & Hd & _).
    apply forallb_forall. intros x Hx. apply negb_true_iff, digit_not_sep.
    rewrite Forall_forall in Hd. by apply Hd, list_elem_of_In. }
  rewrite ver_key_plain_numbers; by rewrite Hs.
Qed.

Lemma ver_key_of_numbers_witness :
  [u "0"; u "3"; u "10"] <> [] /\ forallb plain_number [u "0"; u "3"; u "10"] = true /\
  ver_key ascii_only (u "v0.3.10") = [TInt 0; TInt 3; TInt 10].
Proof.
  assert ([u "0"; u "3"; u "10"] <> []) as H1 by done.
  assert (forallb plain_number [u "0"; u "3"; u "10"] = true) as H2 by reflexivity.
  split; [exact H1|]. split; [exact H2|].
  exact (ver_key_of_numbers ascii_only (chr "v") _ H1 H2).
Defined.

(** X14: a listing whose versions are all made of plain numbers is always
    resolved: the keys hold integers only, every two of them can be compared,
    and the call returns an extracted version. *)
Theorem numeric_listing_resolves (order : set_order) (unicode_decimal : N -> option N) (body : list byte) :
  extracted body <> [] ->
  (forall v, v ∈ extracted body -> forallb plain_number (split (drop 1 v)) = true) ->
  keys_comparable unicode_decimal (extracted body) /\
  exists v, (run order unicode_decimal (Ok body)).2 = Ok [v] /\ v ∈ extracted body.
Proof.
  intros Hne Hnum.
  assert (keys_comparable unicode_decimal (extracted body)) as Hc.
  { intros v w Hv Hw. rewrite !ver_key_plain_numbers by auto. apply list_lt_ints_ok. }
  split; [done|].
  destruct (run_returns_maximum order unicode_decimal body Hne Hc) as (v & Hr & Hv & _). eauto.
Qed.

Lemma numeric_listing_resolves_witness :
  extracted (listing three_releases) <> [] /\
  exists v, (run canonical ascii_only (Ok (listing three_releases))).2 = Ok [v] /\
            v ∈ extracted (listing three_releases).
Proof.
  assert (extracted (listing three_releases) <> []) as H1 by (by vm_compute).
  split; [exact H1|].
  apply (numeric_listing_resolves canonical ascii_only _ H1).
  replace (extracted (listing three_releases))
    with [u "v0.3.9"; u "v0.3.10"; u "v0.3.2"] by (by vm_compute).
  intros v Hv. repeat (apply elem_of_cons in Hv as [->|Hv]; [reflexivity|]).
  by apply elem_of_nil in Hv.
Defined.

(** ** The two separators *)

Lemma merge_sep_is_sep (c : N) : is_sep (merge_sep c) = is_sep c.
Proof. unfold merge_sep. by destruct (is_sep c) eqn:Hc. Qed.

Lemma split_merge_sep (core : str) : split (merge_sep <$> core) = split core.
Proof.
  induction core as [|c core IH]; [done|].
  rewrite fmap_cons. cbn [split]. rewrite merge_sep_is_sep, IH.
  unfold merge_sep. by destruct (is_sep c).
Qed.

(** X15: the key does not tell the dot from the hyphen, nor does it look at
    the first character: two versions whose cores differ only in which
    separator stands where have the same key, so neither is greater. *)
Theorem separators_are_interchangeable
    (unicode_decimal : N -> option N) (c c' : N) (core core' : str) :
  merge_sep <$> core = merge_sep <$> core' ->
  ver_key unicode_decimal (c :: core) = ver_key unicode_decimal (c' :: core') /\
  list_lt (ver_key unicode_decimal (c :: core)) (ver_key unicode_decimal (c' :: core'))
    = Ok false.
Proof.
  intros H.
  assert (ver_key unicode_decimal (c :: core) = ver_key unicode_decimal (c' :: core')) as Hk.
  { unfold ver_key. change (drop 1 (c :: core)) with core.
    change (drop 1 (c' :: core')) with core'.
    by rewrite <- (split_merge_sep core), H, split_merge_sep. }
  split; [done|]. rewrite Hk. apply list_lt_irrefl.
Qed.

Lemma separators_are_interchangeable_witness :
  merge_sep <$> u "1.0-rc1" = merge_sep <$> u "1-0.rc1" /\
  ver_key ascii_only (u "v1.0-rc1") = ver_key ascii_only (u "v1-0.rc1").
Proof.
  assert (merge_sep <$> u "1.0-rc1" = merge_sep <$> u "1-0.rc1") as H by reflexivity.
  split; [exact H|].
  exact (proj1 (separators_are_interchangeable ascii_only (chr "v") (chr "v") _ _ H)).
Defined.

(** ** Text tokens and leading zeros *)

Lemma ver_key_dotted (unicode_decimal : N -> option N) (c : N) (parts : list str) :
  parts <> [] ->
  Forall (fun p => forallb (fun c => negb (is_sep c)) p = true) parts ->
  ver_key unicode_decimal (c :: dotted parts) =
    (fun p => match int unicode_decimal p with Some z => TInt z | None => TStr p end)
      <$> parts.
Proof.
  intros Hne Hall. unfold ver_key. change (drop 1 (c :: dotted parts)) with (dotted parts).
  by rewrite split_dotted.
Qed.

(** X16: two versions that differ only in a last piece that is not a number
    are ordered by that piece as text, code point by code point; so a
    candidate numbered 10 comes below the one numbered 9. *)
Theorem text_tokens_compare_as_text
    (unicode_decimal : N -> option N) (c : N) (parts : list str) (p q : str) :
  Forall (fun p => forallb (fun c => negb (is_sep c)) p = true) (parts ++ [p; q]) ->
  int unicode_decimal p = None -> int unicode_decimal q = None ->
  list_lt (ver_key unicode_decimal (c :: dotted (parts ++ [p])))
          (ver_key unicode_decimal (c :: dotted (parts ++ [q])))
    = Ok (str_ltb p q).
Proof.
  intros Hall Hp Hq.
  apply Forall_app in Hall as [Hparts Hpq].
  apply Forall_cons in Hpq as [Hsp Hpq]. apply Forall_cons in Hpq as [Hsq _].
  rewrite !ver_key_dotted; try (by destruct parts);
    try (apply Forall_app; split; [done|by repeat constructor]).
  rewrite !fmap_app, list_lt_common_prefix. simpl. rewrite Hp, Hq. simpl.
  case_bool_decide as Heq; [|done]. subst q. by rewrite str_ltb_irrefl.
Qed.

Lemma text_tokens_compare_as_text_witness :
  int ascii_only (u "rc10") = None /\ int ascii_only (u "rc9") = None /\
  list_lt (ver_key ascii_only (u "v1.0.rc10")) (ver_key ascii_only (u "v1.0.rc9")) = Ok true.
Proof.
  assert (int ascii_only (u "rc10") = None) as H1 by reflexivity.
  assert (int ascii_only (u "rc9") = None) as H2 by reflexivity.
  split; [exact H1|]. split; [exact H2|].
  assert (Forall (fun p => forallb (fun c => negb (is_sep c)) p = true)
            ([u "1"; u "0"] ++ [u "rc10"; u "rc9"])) as H3
    by (simpl; repeat constructor).
  exact (text_tokens_compare_as_text ascii_only (chr "v") [u "1"; u "0"] _ _ H3 H1 H2).
Defined.

Lemma plain_number_sepfree (p : str) :
  plain_number p = true -> forallb (fun c => negb (is_sep c)) p = true.
Proof.
  intros (_ & _ & _ & Hd & _)%plain_number_spec.
  apply forallb_forall. intros x Hx. apply negb_true_iff, digit_not_sep.
  rewrite Forall_forall in Hd. by apply Hd, list_elem_of_In.
Qed.

(** X17: a zero in front of a plain number does not change the token: both
    pieces are converted, and to the same integer, which is the token at
    their place in the key; so two versions that differ only in such a zero
    have the same key, and neither is below the other. *)
Theorem leading_zero_is_ignored
    (unicode_decimal : N -> option N) (c : N) (front back : list str) (p : str) :
  Forall (fun q => forallb (fun c => negb (is_sep c)) q = true) (front ++ back) ->
  plain_number p = true -> plain_number (chr "0" :: p) = true ->
  int unicode_decimal (chr "0" :: p) = Some (value p) /\
  int unicode_decimal p = Some (value p) /\
  ver_key unicode_decimal (c :: dotted (front ++ p :: back)) =
    ((fun q => match int unicode_decimal q with Some z => TInt z | None => TStr q end)
       <$> front) ++
    TInt (value p) ::
    ((fun q => match int unicode_decimal q with Some z => TInt z | None => TStr q end)
       <$> back) /\
  ver_key unicode_decimal (c :: dotted (front ++ (chr "0" :: p) :: back)) =
    ver_key unicode_decimal (c :: dotted (front ++ p :: back)) /\
  list_lt (ver_key unicode_decimal (c :: dotted (front ++ (chr "0" :: p) :: back)))
          (ver_key unicode_decimal (c :: dotted (front ++ p :: back))) = Ok false.
Proof.
  intros Hsep Hp H0.
  assert (int unicode_decimal (chr "0" :: p) = Some (value p)) as Hi0
    by (by rewrite (int_plain_number _ _ H0)).
  pose proof (int_plain_number unicode_decimal _ Hp) as Hip.
  apply Forall_app in Hsep as [Hfront Hback].
  assert (forall q, plain_number q = true ->
            ver_key unicode_decimal (c :: dotted (front ++ q :: back)) =
            ((fun q => match int unicode_decimal q with Some z => TInt z | None => TStr q end)
               <$> front) ++
            TInt (value q) ::
            ((fun q => match int unicode_decimal q with Some z => TInt z | None => TStr q end)
               <$> back)) as Hkey.
  { intros q Hq. rewrite ver_key_dotted.
    - by rewrite fmap_app, fmap_cons, (int_plain_number _ _ Hq).
    - by destruct front.
    - apply Forall_app. split; [done|].
      constructor; [by apply plain_number_sepfree|done]. }
  assert (ver_key unicode_decimal (c :: dotted (front ++ (chr "0" :: p) :: back)) =
          ver_key unicode_decimal (c :: dotted (front ++ p :: back))) as Hk.
  { etrans; [exact (Hkey _ H0)|]. symmetry. exact (Hkey _ Hp). }
  split; [done|]. split; [done|]. split; [by apply Hkey|]. split; [done|].
  rewrite Hk. apply list_lt_irrefl.
Qed.

Lemma leading_zero_is_ignored_witness :
  Forall (fun q => forallb (fun c => negb (is_sep c)) q = true) ([u "0"] ++ [u "2"]) /\
  plain_number (u "10") = true /\ plain_number (u "010") = true /\
  int ascii_only (u "010") = Some 10%Z /\
  ver_key ascii_only (u "v0.10.2") = [TInt 0; TInt 10; TInt 2] /\
  ver_key ascii_only (u "v0.010.2") = ver_key ascii_only (u "v0.10.2").
Proof.
  assert (plain_number (u "10") = true) as H1 by reflexivity.
  assert (plain_number (u "010") = true) as H2 by reflexivity.
  assert (Forall (fun q => forallb (fun c => negb (is_sep c)) q = true)
            ([u "0"] ++ [u "2"])) as H3 by (simpl; repeat constructor).
  destruct (leading_zero_is_ignored ascii_only (chr "v") [u "0"] [u "2"] (u "10") H3 H1 H2)
    as (Hi & _ & Hp & Hk & _).
  split; [exact H3|]. split; [exact H1|]. split; [exact H2|]. split; [exact Hi|].
  split; [exact Hp|exact Hk].
Defined.

(** ** Bytes that are dropped *)

Lemma utf8_decode_ignore_pos (n : nat) :
  forall (bs : list byte) (p q : nat),
    (length bs <= n)%nat -> utf8_decode ignore p bs = utf8_decode ignore q bs.
Proof.
  induction n as [|n IH]; intros [|c1 r1] p q Hlen; try done.
  { simpl in Hlen. lia. }
  assert (forall bs p' q', (length bs <= length r1)%nat ->
            utf8_decode ignore p' bs = utf8_decode ignore q' bs) as Hrec.
  { intros bs p' q' Hbs. apply IH. simpl in Hlen. lia. }
  cbn [utf8_decode]. unfold on_error.
  repeat first
    [ done
    | apply Hrec; simpl; lia
    | f_equal; apply Hrec; simpl; lia
    | match goal with
      | |- context [if ?b then _ else _] => destruct b
      | |- context [match ?l with [] => _ | _ :: _ => _ end] => is_var l; destruct l
      end ].
Qed.

Lemma utf8_decode_ascii (h : errors) (bs : list byte) (pos : nat) :
  forallb is_ascii_byte bs = true -> utf8_decode h pos bs = Ok (Byte.to_N <$> bs).
Proof.
  revert pos. induction bs as [|b bs IH]; intros pos; [done|].
  intros [Hb Hbs]%andb_true_iff. cbn [utf8_decode]. unfold is_ascii_byte in Hb.
  by rewrite Hb, IH.
Qed.

Lemma utf8_decode_invalid_start (j : byte) (bs : list byte) (pos : nat) :
  invalid_start j = true ->
  utf8_decode ignore pos (j :: bs) = utf8_decode ignore (S pos) bs.
Proof.
  unfold invalid_start. cbv zeta. intros H.
  assert ((0x80 <= Byte.to_N j /\ Byte.to_N j < 0xC2) \/ 0xF5 <= Byte.to_N j) as Hn.
  { apply orb_true_iff in H as [[H1 H2]%andb_true_iff|H].
    - left. split; [by apply N.leb_le|by apply N.ltb_lt].
    - right. by apply N.leb_le. }
  clear H. cbn [utf8_decode]. cbv zeta.
  destruct (N.ltb_spec (Byte.to_N j) 0x80); [lia|].
  destruct (N.ltb_spec (Byte.to_N j) 0xC2); [done|].
  destruct (N.ltb_spec (Byte.to_N j) 0xE0); [lia|].
  destruct (N.ltb_spec (Byte.to_N j) 0xF0); [lia|].
  by destruct (N.ltb_spec (Byte.to_N j) 0xF5); [lia|].
Qed.

(** X18: a body of ASCII bytes is decoded to the code points of its bytes,
    whatever the handler, and nothing is dropped. *)
Theorem ascii_body_decodes_to_itself (h : errors) (body : list byte) :
  forallb is_ascii_byte body = true -> decode h body = Ok (Byte.to_N <$> body).
Proof. apply utf8_decode_ascii. Qed.

Lemma ascii_body_decodes_to_itself_witness :
  forallb is_ascii_byte (bytes_of "a/v1.2/b") = true /\
  decode strict (bytes_of "a/v1.2/b") = Ok (u "a/v1.2/b").
Proof.
  assert (forallb is_ascii_byte (bytes_of "a/v1.2/b") = true) as H by reflexivity.
  split; [exact H|]. exact (ascii_body_decodes_to_itself strict _ H).
Defined.

(** X19: a byte that can start no UTF-8 sequence is dropped without a trace
    when it stands behind ASCII text: the body with the byte and the body
    without it are decoded to the same text, and the call does the same and
    gives the same on both. *)
Theorem stray_byte_is_dropped
    (order : set_order) (unicode_decimal : N -> option N) (front back : list byte) (j : byte) :
  forallb is_ascii_byte front = true -> invalid_start j = true ->
  decode ignore (front ++ j :: back) = decode ignore (front ++ back) /\
  run order unicode_decimal (Ok (front ++ j :: back)) = run order unicode_decimal (Ok (front ++ back)).
Proof.
  intros Hfront Hj.
  assert (decode ignore (front ++ j :: back) = decode ignore (front ++ back)) as Hd.
  { unfold decode. generalize 0%nat. induction front as [|b front IH]; intros pos.
    - cbn [app]. rewrite utf8_decode_invalid_start by done.
      by apply (utf8_decode_ignore_pos (length back)).
    - simpl in Hfront. apply andb_true_iff in Hfront as [Hb Hfront].
      cbn [app utf8_decode]. unfold is_ascii_byte in Hb. rewrite Hb.
      by rewrite IH. }
  split; [done|]. rewrite !run_body. unfold candidates, extracted, names_of.
  by rewrite Hd.
Qed.

Lemma stray_byte_is_dropped_witness :
  forallb is_ascii_byte (bytes_of "a/v1") = true /\ invalid_start xff = true /\
  decode ignore (bytes_of "a/v1" ++ xff :: bytes_of ".2/b") = Ok (u "a/v1.2/b").
Proof.
  assert (forallb is_ascii_byte (bytes_of "a/v1") = true) as H1 by reflexivity.
  assert (invalid_start xff = true) as H2 by reflexivity.
  split; [exact H1|]. split; [exact H2|].
  rewrite (proj1 (stray_byte_is_dropped canonical ascii_only _ (bytes_of ".2/b") _ H1 H2)).
  reflexivity.
Defined.
